(** * Laser Chess: the React front end (src/App.js) and the engine it drives

    The file embeds [src/App.js] shallowly: every hook body, callback and
    renderer of the [App] component is a Rocq function of the values it
    closes over, a [setTimeout] is a value recording its delay and the
    actions its callback dispatches, and a piece of JSX is a tree of
    elements.  The models, the Redux slice and the [BoardPiece] component
    that [App.js] imports are described by the specification only; what is
    needed of them is either an interface (a type class) or a definition
    marked as modelled from the specification.  The effect that asks the
    automated opponent for a move is also followed in time, as steps of a
    page with its pending timers. *)

From Stdlib Require Import ZArith QArith Lia Lqa Bool Ascii String.
From Stdlib Require Import Floats Uint63.
From stdpp Require Import base decidable option list strings.

Local Open Scope Z_scope.
Set Warnings "-register-all".

(** ** Enumerations ([models/Enums]) *)

(** [PlayerTypesEnum]. *)
Inductive PlayerTypesEnum := RED | BLUE.

(** [MovementTypesEnum]. *)
Inductive MovementTypesEnum :=
  NORMAL | ROTATION_CLOCKWISE | ROTATION_C_CLOCKWISE | SPECIAL.

Inductive PieceType := Pharaoh | Pyramid | Scarab | Anubis | Sphinx.

(** The four facings; also the four directions a beam travels in. *)
Inductive Orientation := North | East | South | West.

Inductive MatchStatus := InProgress | Finished.

#[global] Instance PlayerTypesEnum_eq_dec : EqDecision PlayerTypesEnum.
Proof. solve_decision. Defined.
#[global] Instance MovementTypesEnum_eq_dec : EqDecision MovementTypesEnum.
Proof. solve_decision. Defined.
#[global] Instance PieceType_eq_dec : EqDecision PieceType.
Proof. solve_decision. Defined.
#[global] Instance Orientation_eq_dec : EqDecision Orientation.
Proof. solve_decision. Defined.
#[global] Instance MatchStatus_eq_dec : EqDecision MatchStatus.
Proof. solve_decision. Defined.

Definition otherPlayer (p : PlayerTypesEnum) : PlayerTypesEnum :=
  match p with RED => BLUE | BLUE => RED end.

(** ** Location, Piece, Square *)

Record Location := mkLocation { rowIndex : Z; colIndex : Z }.

Record Piece := mkPiece {
  pieceType : PieceType;
  owner : PlayerTypesEnum;
  orientation : Orientation
}.

(** A square keeps its own location beside the piece standing on it;
    an empty square has no piece. *)
Record Square := mkSquare { location : Location; piece : option Piece }.

#[global] Instance Location_eq_dec : EqDecision Location.
Proof. solve_decision. Defined.
#[global] Instance Piece_eq_dec : EqDecision Piece.
Proof. solve_decision. Defined.
#[global] Instance Square_eq_dec : EqDecision Square.
Proof. solve_decision. Defined.

(** [state.game.squares]: the rows of the board, each a row of squares
    ([flatMap(squares)] flattens the rows into one array). *)
Abbreviation Squares := (list (list Square)).

(** [squares[rowIndex][colIndex]]; indexing outside an array is [undefined]. *)
Definition squareAt (squares : Squares) (l : Location) : option Square :=
  if bool_decide (0 <= rowIndex l /\ 0 <= colIndex l) then
    row ← squares !! Z.to_nat (rowIndex l);
    row !! Z.to_nat (colIndex l)
  else None.

Definition pieceAt (squares : Squares) (l : Location) : option Piece :=
  squareAt squares l ≫= piece.

(** ** JavaScript values and truthiness *)

(** The values [App.js] tests for truthiness: [laserBeamPath.length], the
    [points] array of [drawLaser], the [winner] of the store. *)
Inductive JsValue :=
| JsUndefined
| JsNull
| JsBoolean (b : bool)
| JsNumber (n : Q)
| JsString (s : string)
| JsArray (elements : list Q)
| JsObject.

(** ECMAScript's ToBoolean: every array and object is truthy, the empty one
    included; zero and the empty string are falsy. *)
Definition truthy (v : JsValue) : bool :=
  match v with
  | JsUndefined | JsNull => false
  | JsBoolean b => b
  | JsNumber n => negb (Qeq_bool n 0)
  | JsString s => negb (bool_decide (s = ""%string))
  | JsArray _ | JsObject => true
  end.

(** ** Movement and its transport form ([models/Movement]) *)

(** The piece a Special movement affects besides the moving one. *)
Record Secondary := mkSecondary {
  secondaryLocation : Location;
  secondaryOrientation : Orientation
}.

Record Movement := mkMovement {
  movementType : MovementTypesEnum;
  srcLocation : Location;
  destLocation : Location;
  secondary : option Secondary
}.

#[global] Instance Secondary_eq_dec : EqDecision Secondary.
Proof. solve_decision. Defined.
#[global] Instance Movement_eq_dec : EqDecision Movement.
Proof. solve_decision. Defined.

(** A plain, transport-neutral value: what a Redux action may carry. *)
Inductive Plain :=
| PNumber (n : Z)
| PString (s : string)
| PRecord (fields : list (string * Plain)).

(** The errors of section 7 of the specification and, for a transport value
    that is no movement record at all, [MalformedMovement]. *)
Inductive EngineError :=
| IllegalMoveError
| OutOfTurnError
| InvalidLocationError
| MalformedMovement.

(** The first field of that name, as property access on a plain object. *)
Fixpoint field (name : string) (fields : list (string * Plain)) : option Plain :=
  match fields with
  | [] => None
  | (k, v) :: rest => if String.eqb k name then Some v else field name rest
  end.

(** Modelled from the spec: the bounds test of section 8,
    [isInBounds(L) == (0 <= L.row < N /\ 0 <= L.col < M)], for a board of
    [rows] rows and [cols] columns ([models/Location] is not under src/). *)
Definition isInBounds (rows cols : Z) (l : Location) : bool :=
  bool_decide (0 <= rowIndex l < rows /\ 0 <= colIndex l < cols).

Definition movementTypeName (t : MovementTypesEnum) : string :=
  match t with
  | NORMAL => "NORMAL"
  | ROTATION_CLOCKWISE => "ROTATION_CLOCKWISE"
  | ROTATION_C_CLOCKWISE => "ROTATION_C_CLOCKWISE"
  | SPECIAL => "SPECIAL"
  end.

Definition movementTypeOfName (s : string) : option MovementTypesEnum :=
  if String.eqb s "NORMAL" then Some NORMAL
  else if String.eqb s "ROTATION_CLOCKWISE" then Some ROTATION_CLOCKWISE
  else if String.eqb s "ROTATION_C_CLOCKWISE" then Some ROTATION_C_CLOCKWISE
  else if String.eqb s "SPECIAL" then Some SPECIAL
  else None.

Definition orientationName (o : Orientation) : string :=
  match o with North => "N" | East => "E" | South => "S" | West => "W" end.

Definition orientationOfName (s : string) : option Orientation :=
  if String.eqb s "N" then Some North
  else if String.eqb s "E" then Some East
  else if String.eqb s "S" then Some South
  else if String.eqb s "W" then Some West
  else None.

Definition serializeLocation (l : Location) : Plain :=
  PRecord [("rowIndex", PNumber (rowIndex l)); ("colIndex", PNumber (colIndex l))]%string.

(** Modelled from the spec: [Movement.serialize] of [models/Movement] (not
    under src/), the "structured record" of section 6:
    [{ type, srcLocation, destLocation, secondary? }]. *)
Definition serialize (m : Movement) : Plain :=
  PRecord
    ([("type", PString (movementTypeName (movementType m)));
      ("srcLocation", serializeLocation (srcLocation m));
      ("destLocation", serializeLocation (destLocation m))]%string
     ++ match secondary m with
        | None => []
        | Some s =>
            [("secondary",
              PRecord [("location", serializeLocation (secondaryLocation s));
                       ("orientation", PString (orientationName (secondaryOrientation s)))])]%string
        end).

(** Modelled from the spec: reading a Location back; a coordinate outside
    the configured bounds is an [InvalidLocationError] (section 7). *)
Definition deserializeLocation (rows cols : Z) (p : Plain)
  : EngineError + Location :=
  match p with
  | PRecord fs =>
      match field "rowIndex" fs, field "colIndex" fs with
      | Some (PNumber r), Some (PNumber c) =>
          let l := mkLocation r c in
          if isInBounds rows cols l then inr l else inl InvalidLocationError
      | _, _ => inl MalformedMovement
      end
  | _ => inl MalformedMovement
  end.

Definition deserializeSecondary (rows cols : Z) (fs : list (string * Plain))
  : EngineError + option Secondary :=
  match field "secondary" fs with
  | None => inr None
  | Some (PRecord sf) =>
      match field "location" sf, field "orientation" sf with
      | Some pl, Some (PString o) =>
          match deserializeLocation rows cols pl, orientationOfName o with
          | inr l, Some o' => inr (Some (mkSecondary l o'))
          | inl e, _ => inl e
          | _, None => inl MalformedMovement
          end
      | _, _ => inl MalformedMovement
      end
  | Some _ => inl MalformedMovement
  end.

(** Modelled from the spec: the inverse of [serialize] at the engine's
    boundary, for a board of [rows] by [cols] squares. *)
Definition deserialize (rows cols : Z) (p : Plain) : EngineError + Movement :=
  match p with
  | PRecord fs =>
      match field "type" fs, field "srcLocation" fs, field "destLocation" fs with
      | Some (PString t), Some ps, Some pd =>
          match movementTypeOfName t,
                deserializeLocation rows cols ps,
                deserializeLocation rows cols pd,
                deserializeSecondary rows cols fs with
          | Some t', inr s, inr d, inr sec => inr (mkMovement t' s d sec)
          | None, _, _, _ => inl MalformedMovement
          | _, inl e, _, _ => inl e
          | _, _, inl e, _ => inl e
          | _, _, _, inl e => inl e
          end
      | _, _, _ => inl MalformedMovement
      end
  | _ => inl MalformedMovement
  end.

(** The locations a Movement names all lie on the board. *)
Definition movementInBounds (rows cols : Z) (m : Movement) : bool :=
  isInBounds rows cols (srcLocation m)
  && isInBounds rows cols (destLocation m)
  && match secondary m with
     | None => true
     | Some s => isInBounds rows cols (secondaryLocation s)
     end.

(** ** [src/App.js]: the [App] component *)

(** What [App.js] imports and [src/] does not hold, as interfaces:
    [LocationUtils.toANString], the [imageName] of a piece, and
    [Board.getMovesForPieceAtLocation] of the board built from the current
    squares ([getCurrentBoard], App.js 111-115). *)
Class Models := {
  toANString : Location -> string;
  imageName : Piece -> string;
  getMovesForPieceAtLocation : Squares -> Location -> list Movement
}.

(** The actions of [redux/slices/gameSlice] (App.js 11). *)
Inductive Action :=
| setBoardType
| togglePlayerTurn
| hideLaserBeam
| playerMove (movement : Plain)
| aiMove
| toggleAI.

(** [setTimeout(() => { dispatch(a1()); ... }, ms)]: the actions the callback
    dispatches, in order, and the delay. *)
Record Timeout := mkTimeout { callback : list Action; ms : Z }.

(** The actions a list of timers dispatches once they have all fired. *)
Definition dispatched (timers : list Timeout) : list Action :=
  timers ≫= callback.


(** App.js 70-82: the effect on [laserBeamPath].  The path is an array of
    coordinate pairs. *)
Definition laserEffect (laserBeamPath : list (list Z)) : list Timeout :=
  if truthy (JsNumber (inject_Z (Z.of_nat (length laserBeamPath)))) then
    [mkTimeout [togglePlayerTurn; hideLaserBeam] 500]
  else [].

(** App.js 85-93: the effect on [turn] and [aiEnabled]. *)
Definition aiEffect (turn : PlayerTypesEnum) (aiEnabled : bool) : list Timeout :=
  if bool_decide (turn = RED) && truthy (JsBoolean aiEnabled) then
    [mkTimeout [aiMove] 500]
  else [].

(** App.js 96-103.  Sizes are JavaScript numbers; they are modelled as exact
    rationals. *)
Definition getBoardSize (stageWidth : Q) : Q := stageWidth.

Definition getCellSize (stageWidth : Q) : Q := (getBoardSize stageWidth / 10)%Q.

(** App.js 298: the [width] and [height] of the [Stage]. *)
Definition stageWidthProp (stageWidth : Q) : Q := getBoardSize stageWidth.

Definition stageHeightProp (stageWidth : Q) : Q :=
  (getBoardSize stageWidth - 2 * getCellSize stageWidth)%Q.

(** *** Elements *)

Record RectProps := mkRect {
  rectKey : string;
  rectStroke : string;
  rectCornerRadius : Q;
  rectListening : bool;
  rectStrokeWidth : Q;
  rectLineCap : string;
  rectLineJoin : string;
  rectWidth : Q;
  rectHeight : Q;
  rectX : Q;
  rectY : Q
}.

Record CircleProps := mkCircle {
  circleKey : string;
  circleFill : string;
  circleOffsetX : Q;
  circleOffsetY : Q;
  circleListening : bool;
  circleWidth : Q;
  circleHeight : Q;
  circleStroke : string;
  circleStrokeWidth : Q;
  circlePerfectDrawEnabled : bool;
  circleX : Q;
  circleY : Q
}.

Record LineProps := mkLine {
  points : list Q;
  stroke : string;
  lineCap : string;
  lineJoin : string;
  listening : bool;
  strokeWidth : Q
}.

(** The props of a [BoardPiece] that [App] computes; its [id] is the id of
    the node the piece is drawn as. *)
Record BoardPieceProps := mkBoardPiece {
  bpTurn : PlayerTypesEnum;
  bpLaserIsTriggered : bool;
  bpId : string;
  bpKey : string;
  bpSquare : Square;
  bpGridSize : Q
}.

(** A React child: an element, or an array of children. *)
Inductive Element :=
| Rect (props : RectProps)
| Circle (props : CircleProps)
| Line (props : LineProps)
| H1 (children : list string)
| BoardPiece (props : BoardPieceProps)
| Children (children : list Element).

(** The [Circle]s of a tree of elements, in document order. *)
Fixpoint circlesOf (e : Element) : list CircleProps :=
  match e with
  | Circle p => [p]
  | Children cs =>
      (fix go (l : list Element) : list CircleProps :=
         match l with
         | [] => []
         | c :: rest => circlesOf c ++ go rest
         end) cs
  | _ => []
  end.

Definition circlesOfAll (es : list Element) : list CircleProps :=
  circlesOf (Children es).

(** lodash's [isEmpty] at the one value [App] applies it to: the selected
    location is [null] or an object with its two coordinates. *)
Definition isEmpty (selectedPieceLocation : option Location) : bool :=
  match selectedPieceLocation with
  | None => true
  | Some _ => false
  end.

(** App.js 123-167.  [None] is the [undefined] the callback returns when
    nothing is selected. *)
Definition drawHighlight `{Models} (selectedPieceLocation : option Location)
    (squares : Squares) (stageWidth : Q) : option (list Element) :=
  if negb (isEmpty selectedPieceLocation) then
    match selectedPieceLocation with
    | Some selected =>
        let movesForSelectedPiece := getMovesForPieceAtLocation squares selected in
        let cell := getCellSize stageWidth in
        let selectedPieceHighlight :=
          Rect {| rectKey := "selectedPiece";
                  rectStroke := "#F8F32B";
                  rectCornerRadius := 8;
                  rectListening := false;
                  rectStrokeWidth := 2;
                  rectLineCap := "round";
                  rectLineJoin := "round";
                  rectWidth := cell;
                  rectHeight := cell;
                  rectX := (inject_Z (colIndex selected) * cell)%Q;
                  rectY := (inject_Z (rowIndex selected) * cell)%Q |} in
        let possibleMovesHighlights :=
          map (fun move =>
                 Circle
                   {| circleKey := "pm--" +:+ toANString (destLocation move);
                      circleFill := "#1EFC1E9F";
                      circleOffsetX := (- cell / 2)%Q;
                      circleOffsetY := (- cell / 2)%Q;
                      circleListening := false;
                      circleWidth := (cell / 2.5)%Q;
                      circleHeight := (cell / 2.5)%Q;
                      circleStroke := "#1EFC1E";
                      circleStrokeWidth := 4;
                      circlePerfectDrawEnabled := false;
                      circleX := (inject_Z (colIndex (destLocation move)) * cell)%Q;
                      circleY := (inject_Z (rowIndex (destLocation move)) * cell)%Q |})
              movesForSelectedPiece in
        Some [selectedPieceHighlight; Children possibleMovesHighlights]
    | None => None
    end
  else None.

(** Modelled from the spec: [SquareUtils.hasPiece] ([models/Square] is not
    under src/); "emptiness is represented by an absent Piece". *)
Definition hasPiece (square : Square) : bool :=
  match piece square with Some _ => true | None => false end.

(** App.js 173-189 and 227-232: one [BoardPiece] per square that has a
    piece. *)
Definition drawBoardPieces `{Models} (squares : Squares) (turn : PlayerTypesEnum)
    (laserIsTriggered : bool) (stageWidth : Q) : list BoardPieceProps :=
  let flattenedSquares := concat squares in
  let squaresWithPieces := List.filter hasPiece flattenedSquares in
  map (fun square =>
         mkBoardPiece turn laserIsTriggered
           (toANString (location square))
           (match piece square with
            | Some p => imageName p
            | None => ""
            end +:+ "--" +:+ toANString (location square))
           square
           (getCellSize stageWidth))
      squaresWithPieces.

(** [stagePiecesLayerRef.current.find("#" + id)]: the nodes of the pieces
    layer with that id, in drawing order. *)
Definition find (layer : list BoardPieceProps) (id : string) : list BoardPieceProps :=
  List.filter (fun node => bool_decide (bpId node = id)) layer.

(** What the [onMove] handler does. *)
Inductive Effect :=
| Tween (node : BoardPieceProps) (x y : Q) (duration : Q)
| Dispatch (a : Action)
| SetTimeout (t : Timeout).

Inductive JsError := TypeError.

(** App.js 190-225: the [onMove] handler of a [BoardPiece].  [query[0]] of an
    empty result is [undefined], and calling [.to] on it throws. *)
Definition onMove `{Models} (stagePiecesLayer : list BoardPieceProps)
    (movement : Movement) (srcPieceXY : Q * Q) : JsError + list Effect :=
  let animation : JsError + list Effect :=
    if bool_decide (movementType movement = SPECIAL) then
      let destPieceId := toANString (destLocation movement) in
      let query := find stagePiecesLayer destPieceId in
      match query !! 0%nat with
      | Some destPieceRaw =>
          inr [Tween destPieceRaw (fst srcPieceXY) (snd srcPieceXY) 0.332%Q]
      | None => inl TypeError
      end
    else inr [] in
  match animation with
  | inl e => inl e
  | inr tweens =>
      let delayed :=
        negb (bool_decide (movementType movement = ROTATION_CLOCKWISE)
              || bool_decide (movementType movement = ROTATION_C_CLOCKWISE)) in
      inr (tweens ++
           if delayed then
             [SetTimeout (mkTimeout [playerMove (serialize movement)] 332)]
           else
             [Dispatch (playerMove (serialize movement))])
  end.

(** The movements that reach the store through a handler's effects. *)
Definition submitted (effects : list Effect) : list Plain :=
  effects ≫= fun e =>
    match e with
    | Dispatch (playerMove m) => [m]
    | SetTimeout t =>
        callback t ≫= fun a => match a with playerMove m => [m] | _ => [] end
    | _ => []
    end.

(** App.js 236-248.  [flatMap(laserBeamPath)] flattens the pairs. *)
Definition drawLaser (laserBeamPath : list (list Z)) (stageWidth : Q)
  : option Element :=
  let points :=
    map (fun coord => (inject_Z coord * getCellSize stageWidth
                       + getCellSize stageWidth / 2)%Q)
        (concat laserBeamPath) in
  if truthy (JsArray points) then
    Some (Line {| points := points;
                  stroke := "#FF7600";
                  lineCap := "round";
                  lineJoin := "round";
                  listening := false;
                  strokeWidth := 7 |})
  else None.

(** Modelled from the spec: the string values of [PlayerTypesEnum]
    ([models/Enums] is not under src/); App.js 332 calls [toUpperCase] on the
    winner, so they are strings. *)
Definition playerTypeValue (p : PlayerTypesEnum) : string :=
  match p with RED => "red" | BLUE => "blue" end.

Definition upperAscii (c : ascii) : ascii :=
  let n := nat_of_ascii c in
  if bool_decide (97 <= n <= 122)%nat then ascii_of_nat (n - 32) else c.

Fixpoint toUpperCase (s : string) : string :=
  match s with
  | EmptyString => EmptyString
  | String c rest => String (upperAscii c) (toUpperCase rest)
  end.

(** [state.game.winner] as a JavaScript value: [null] until there is one. *)
Definition winnerValue (winner : option PlayerTypesEnum) : JsValue :=
  match winner with
  | None => JsNull
  | Some p => JsString (playerTypeValue p)
  end.

(** App.js 332: [{winner && <h1>(party popper) {winner.toUpperCase()} player
    wins!</h1>}]; a falsy left operand renders nothing.  The children of the
    heading are its two pieces of text and the expression between them. *)
Definition renderWinner (winner : option PlayerTypesEnum) : option Element :=
  if truthy (winnerValue winner) then
    match winner with
    | Some p =>
        Some (H1 ["🎉 "; toUpperCase (playerTypeValue p); " player wins!"])
    | None => None
    end
  else None.

(** ** [src/App.js]: local state, the mount effect and the page *)

(** The two pieces of [useState] (App.js 22-25). *)
Record AppState := mkAppState {
  stateSelectedPieceLocation : option Location;
  stateStageWidth : Q
}.

Definition initialAppState : AppState := mkAppState None 700.

(** App.js 46-49: [refreshBoardSize], with the [offsetWidth] the container
    has when it is called. *)
Definition refreshBoardSize (offsetWidth : Q) (st : AppState) : AppState :=
  mkAppState (stateSelectedPieceLocation st) offsetWidth.

(** A listener registered on [window]: the type of the event and the function
    object, which the browser tells apart by identity (here a number). *)
Definition Listener := (string * nat)%type.

(** [window.addEventListener]: a listener that is already registered for the
    type is not registered twice. *)
Definition addEventListener (l : Listener) (registered : list Listener)
  : list Listener :=
  if bool_decide (l ∈ registered) then registered else registered ++ [l].

(** [window.removeEventListener]. *)
Definition removeEventListener (l : Listener) (registered : list Listener)
  : list Listener :=
  List.filter (fun l' => negb (bool_decide (l' = l))) registered.

(** What surrounds the component: the actions the store has received, the
    component's state and the listeners of [window]. *)
Record Page := mkPage {
  pageActions : list Action;
  pageState : AppState;
  pageListeners : list Listener
}.

(** App.js 51-65: the effect run on mount; [handler] is the [refreshBoardSize]
    of that render. *)
Definition mountEffect (handler : nat) (offsetWidth : Q) (p : Page) : Page :=
  mkPage (pageActions p ++ [setBoardType])
         (refreshBoardSize offsetWidth (pageState p))
         (addEventListener ("resize"%string, handler) (pageListeners p)).

(** App.js 61-64: the function the effect returns, run on unmount. *)
Definition mountCleanup (handler : nat) (p : Page) : Page :=
  mkPage (pageActions p) (pageState p)
         (removeEventListener ("resize"%string, handler) (pageListeners p)).

(** The row of a player: the class of its column and whether its "Your
    turn" badge is hidden. *)
Record PlayerRow := mkPlayerRow {
  rowClassName : string;
  yourTurnHidden : bool
}.

(** App.js 270 and 278. *)
Definition redPlayerRow (turn : PlayerTypesEnum) (aiEnabled : bool) : PlayerRow :=
  mkPlayerRow
    ("col " +:+ (if bool_decide (turn = RED) then "text-white" else "text-muted"))
    (truthy
       (if negb (bool_decide (turn = RED)) then JsBoolean true
        else JsBoolean aiEnabled)).

(** App.js 315 and 323. *)
Definition bluePlayerRow (turn : PlayerTypesEnum) : PlayerRow :=
  mkPlayerRow
    ("col " +:+ (if bool_decide (turn = BLUE) then "text-white" else "text-muted"))
    (negb (bool_decide (turn = BLUE))).

(** *** Konva's geometry of a circle

    The [offset] of a node moves its origin: the node is drawn [offset] to the
    left of and above its position.  The width of a [Circle] is its diameter. *)
Definition circleCentreX (c : CircleProps) : Q := (circleX c - circleOffsetX c)%Q.
Definition circleCentreY (c : CircleProps) : Q := (circleY c - circleOffsetY c)%Q.
Definition circleRadius (c : CircleProps) : Q := (circleWidth c / 2)%Q.

(** ** The engine, from the specification

    [models/Board], the laser engine and the slice's reducers are not under
    src/; the definitions of this part follow sections 3 and 4 of the
    specification.  What the specification leaves to the variant played is an
    interface. *)

(** The two diagonals a mirror can lie on, seen with North up:
    [Slash] joins the south-west and north-east corners. *)
Inductive Diagonal := Slash | Backslash.

(** Modelled from the spec: what section 4 fixes only up to the variant,
    "a fixed reflection table keyed by (incoming direction, piece
    orientation)" of diagonal mirrors and the Sphinx's "constrained
    quarter-turn range tied to its starting corner":
    the diagonal the mirror of a Pyramid or Scarab of a given orientation
    lies on, whether a Pyramid of a given orientation shows its mirrored face
    to a beam travelling in a given direction, and the facings a Sphinx
    standing on a given square may take. *)
Class Variant := {
  mirrorOf : PieceType -> Orientation -> Diagonal;
  pyramidMirrored : Orientation -> Orientation -> bool;
  sphinxMayFace : Location -> Orientation -> bool
}.

Definition rotateClockwise (o : Orientation) : Orientation :=
  match o with North => East | East => South | South => West | West => North end.

Definition rotateCounterClockwise (o : Orientation) : Orientation :=
  match o with North => West | West => South | South => East | East => North end.

Definition opposite (o : Orientation) : Orientation :=
  match o with North => South | South => North | East => West | West => East end.

(** Row 0 is the top row (App.js draws row [r] at [y = r * cell]). *)
Definition advance (l : Location) (d : Orientation) : Location :=
  match d with
  | North => mkLocation (rowIndex l - 1) (colIndex l)
  | South => mkLocation (rowIndex l + 1) (colIndex l)
  | East => mkLocation (rowIndex l) (colIndex l + 1)
  | West => mkLocation (rowIndex l) (colIndex l - 1)
  end.

Definition offsetBy (l : Location) (o : Z * Z) : Location :=
  mkLocation (rowIndex l + fst o) (colIndex l + snd o).

Definition eightNeighbours : list (Z * Z) :=
  [(-1, -1); (-1, 0); (-1, 1); (0, -1); (0, 1); (1, -1); (1, 0); (1, 1)].

Definition fourNeighbours : list (Z * Z) :=
  [(-1, 0); (0, -1); (0, 1); (1, 0)].

(** *** Board: move enumeration (section 4.1) *)

(** Modelled from the spec: Normal moves "onto an empty square"; a
    destination off the board "is not generated at all". *)
Definition normalMoves (squares : Squares) (src : Location) (offsets : list (Z * Z))
  : list Movement :=
  offsets ≫= fun o =>
    let dest := offsetBy src o in
    match squareAt squares dest with
    | Some sq =>
        match piece sq with
        | None => [mkMovement NORMAL src dest None]
        | Some _ => []
        end
    | None => []
    end.

(** Modelled from the spec: "Rotation_* = change orientation in place,
    destination == source". *)
Definition rotations (src : Location) : list Movement :=
  [mkMovement ROTATION_CLOCKWISE src src None;
   mkMovement ROTATION_C_CLOCKWISE src src None].

Definition swapEligible (p : Piece) : bool :=
  match pieceType p with
  | Pyramid | Anubis => true
  | _ => false
  end.

(** Modelled from the spec: the Scarab "moves one square orthogonally or
    diagonally only onto a square occupied by a Pyramid or Anubis, performing
    a Special swap with that piece". *)
Definition specialMoves (squares : Squares) (src : Location) : list Movement :=
  eightNeighbours ≫= fun o =>
    let dest := offsetBy src o in
    match pieceAt squares dest with
    | Some occupant =>
        if swapEligible occupant then
          [mkMovement SPECIAL src dest
             (Some (mkSecondary dest (orientation occupant)))]
        else []
    | None => []
    end.

Definition rotated (t : MovementTypesEnum) (o : Orientation) : Orientation :=
  match t with
  | ROTATION_CLOCKWISE => rotateClockwise o
  | ROTATION_C_CLOCKWISE => rotateCounterClockwise o
  | _ => o
  end.

(** Modelled from the spec: [Board.movesFor] (the
    [getMovesForPieceAtLocation] that App.js calls), by piece type as
    section 4.1 lists the rules. *)
Definition movesFor `{Variant} (squares : Squares) (src : Location) : list Movement :=
  match pieceAt squares src with
  | None => []
  | Some p =>
      match pieceType p with
      | Pharaoh => normalMoves squares src eightNeighbours
      | Pyramid => normalMoves squares src eightNeighbours ++ rotations src
      | Scarab => specialMoves squares src
      | Anubis => normalMoves squares src fourNeighbours ++ rotations src
      | Sphinx =>
          List.filter
            (fun m => sphinxMayFace src (rotated (movementType m) (orientation p)))
            (rotations src)
      end
  end.

(** *** Board: move application (section 4.1) *)

(** [squares[r][c].piece = p]; nothing changes when the location is off the
    board. *)
Definition setPiece (squares : Squares) (l : Location) (p : option Piece) : Squares :=
  if bool_decide (0 <= rowIndex l /\ 0 <= colIndex l) then
    alter (alter (fun sq => mkSquare (location sq) p) (Z.to_nat (colIndex l)))
          (Z.to_nat (rowIndex l)) squares
  else squares.

Definition turnPiece (t : MovementTypesEnum) (p : Piece) : Piece :=
  mkPiece (pieceType p) (owner p) (rotated t (orientation p)).

(** Modelled from the spec: what a movement does to the squares: Normal
    relocates the piece, a rotation turns it in place, Special swaps the
    Scarab with the occupant of the destination ("the occupant is displaced
    to the Scarab's origin square, not removed"). *)
Definition perform (squares : Squares) (m : Movement) : Squares :=
  let src := srcLocation m in
  let dest := destLocation m in
  match movementType m with
  | NORMAL =>
      setPiece (setPiece squares src None) dest (pieceAt squares src)
  | SPECIAL =>
      setPiece (setPiece squares src (pieceAt squares dest)) dest (pieceAt squares src)
  | t =>
      setPiece squares src (turnPiece t <$> pieceAt squares src)
  end.

(** Modelled from the spec: [Board.apply], which "fails with
    IllegalMoveError if the movement violates piece-type rules, board bounds,
    or occupancy constraints": a movement is applied when the board offers
    it. *)
Definition applyMovement `{Variant} (squares : Squares) (m : Movement)
  : EngineError + Squares :=
  if bool_decide (m ∈ movesFor squares (srcLocation m)) then
    inr (perform squares m)
  else inl IllegalMoveError.

(** Every square records the location it stands at. *)
Definition wellFormed (squares : Squares) : Prop :=
  forall (r c : nat) (row : list Square) (sq : Square),
    squares !! r = Some row -> row !! c = Some sq ->
    location sq = mkLocation (Z.of_nat r) (Z.of_nat c).

(** A board of [rows] rows of [cols] squares each. *)
Definition boardOfSize (rows cols : nat) (squares : Squares) : Prop :=
  length squares = rows /\ Forall (fun row => length row = cols) squares.

(** *** Laser engine (section 4.2) *)

(** A diagonal mirror deflects an orthogonal beam by 90 degrees. *)
Definition reflect (m : Diagonal) (d : Orientation) : Orientation :=
  match m, d with
  | Slash, East => North
  | Slash, North => East
  | Slash, West => South
  | Slash, South => West
  | Backslash, East => South
  | Backslash, South => East
  | Backslash, West => North
  | Backslash, North => West
  end.

(** What becomes of a beam that enters an occupied square. *)
Inductive Strike :=
| Reflected (d : Orientation)
| Absorbed
| Destroyed.

(** Modelled from the spec: the interaction of a piece with a beam travelling
    in direction [d].  A Pharaoh or Sphinx is the casualty; a Scarab reflects
    off both faces; a Pyramid reflects off its mirrored face and is the
    casualty otherwise; an Anubis absorbs a beam that meets its front and is
    the casualty otherwise. *)
Definition strike `{Variant} (p : Piece) (d : Orientation) : Strike :=
  match pieceType p with
  | Pharaoh | Sphinx => Destroyed
  | Scarab => Reflected (reflect (mirrorOf Scarab (orientation p)) d)
  | Pyramid =>
      if pyramidMirrored (orientation p) d then
        Reflected (reflect (mirrorOf Pyramid (orientation p)) d)
      else Destroyed
  | Anubis =>
      if bool_decide (d = opposite (orientation p)) then Absorbed else Destroyed
  end.

Record LaserResult := mkLaserResult {
  path : list Location;
  casualty : option Location
}.

Definition lit (l : Location) (r : LaserResult) : LaserResult :=
  mkLaserResult (l :: path r) (casualty r).

(** Modelled from the spec: the stepping loop of [fire], one cell at a time,
    from a beam standing at [l] and travelling in direction [d].  The loop of
    the specification has no bound; here it runs for at most [fuel] steps and
    [None] says that the steps ran out. *)
Fixpoint beam `{Variant} (fuel : nat) (squares : Squares) (l : Location)
    (d : Orientation) : option LaserResult :=
  match fuel with
  | O => None
  | S fuel' =>
      let next := advance l d in
      match squareAt squares next with
      | None => Some (mkLaserResult [] None)
      | Some sq =>
          match piece sq with
          | None => lit next <$> beam fuel' squares next d
          | Some p =>
              match strike p d with
              | Reflected d' => lit next <$> beam fuel' squares next d'
              | Absorbed => Some (mkLaserResult [next] None)
              | Destroyed => Some (mkLaserResult [next] (Some next))
              end
          end
      end
  end.

Definition isSphinxOf (player : PlayerTypesEnum) (sq : Square) : bool :=
  match piece sq with
  | Some p => bool_decide (pieceType p = Sphinx) && bool_decide (owner p = player)
  | None => false
  end.

(** The square of the player's Sphinx: the first one in row order. *)
Definition findSphinx (squares : Squares) (player : PlayerTypesEnum) : option Square :=
  List.find (isSphinxOf player) (concat squares).

(** Modelled from the spec: [fire(board, activePlayer)]: "start at the
    active player's Sphinx location, traveling in the Sphinx's current facing
    direction"; the path starts with the Sphinx's own square. *)
Definition fire `{Variant} (fuel : nat) (squares : Squares)
    (activePlayer : PlayerTypesEnum) : option LaserResult :=
  match findSphinx squares activePlayer with
  | Some sq =>
      match piece sq with
      | Some sphinx => lit (location sq) <$> beam fuel squares (location sq) (orientation sphinx)
      | None => Some (mkLaserResult [] None)
      end
  | None => Some (mkLaserResult [] None)
  end.

Definition isReflective (sq : Square) : bool :=
  match piece sq with
  | Some p =>
      match pieceType p with
      | Pyramid | Scarab => true
      | _ => false
      end
  | None => false
  end.

(** The number of reflective pieces (Pyramids and Scarabs) on the board. *)
Definition reflectivePieces (squares : Squares) : nat :=
  length (List.filter isReflective (concat squares)).

(** The bound of section 8 for a board of [rows] by [cols] squares. *)
Definition laserBound (rows cols : nat) (squares : Squares) : nat :=
  ((rows + cols) * (reflectivePieces squares + 1))%nat.

(** *** Turn and match controller (section 4.3) *)

Record MatchState := mkMatchState {
  activePlayer : PlayerTypesEnum;
  status : MatchStatus;
  winner : option PlayerTypesEnum
}.

Record Game := mkGame {
  board : Squares;
  matchState : MatchState
}.

(** The steps [fire] is given by the controller: the bound of section 8 for
    the board at hand. *)
Definition laserFuel (squares : Squares) : nat :=
  laserBound (length squares) (max_list (length <$> squares)) squares.

(** The laser phase of a turn; a beam whose steps ran out counts as no beam. *)
Definition resolveLaser `{Variant} (squares : Squares) (shooter : PlayerTypesEnum)
  : LaserResult :=
  default (mkLaserResult [] None) (fire (laserFuel squares) squares shooter).

Definition isPharaoh (p : option Piece) : bool :=
  match p with
  | Some q => bool_decide (pieceType q = Pharaoh)
  | None => false
  end.

(** Modelled from the spec: one turn of the controller (section 4.3):
    "Board.apply, then Laser Engine.fire (using updated board, active
    player's own emitter), then if casualty present, Board removes that
    piece, then if the casualty was a Pharaoh, Match State becomes Finished
    with winner = the player who fired, otherwise active player flips".  A
    movement is for the owner of the piece it moves. *)
Definition submit `{Variant} (g : Game) (m : Movement) : EngineError + Game :=
  let shooter := activePlayer (matchState g) in
  match pieceAt (board g) (srcLocation m) with
  | None => inl IllegalMoveError
  | Some p =>
      if bool_decide (owner p = shooter) then
        match applyMovement (board g) m with
        | inl _ => inl IllegalMoveError
        | inr moved =>
            let flipped :=
              mkMatchState (otherPlayer shooter)
                (status (matchState g)) (winner (matchState g)) in
            match casualty (resolveLaser moved shooter) with
            | Some l =>
                let cleared := setPiece moved l None in
                if isPharaoh (pieceAt moved l) then
                  inr (mkGame cleared (mkMatchState shooter Finished (Some shooter)))
                else inr (mkGame cleared flipped)
            | None => inr (mkGame moved flipped)
            end
        end
      else inl OutOfTurnError
  end.

(** Whether the beam of the turn that plays [m] strikes a Pharaoh. *)
Definition strikesPharaoh `{Variant} (g : Game) (m : Movement) : bool :=
  match applyMovement (board g) m with
  | inr moved =>
      match casualty (resolveLaser moved (activePlayer (matchState g))) with
      | Some l => isPharaoh (pieceAt moved l)
      | None => false
      end
  | inl _ => false
  end.

(** Modelled from the spec: the match at its start: "created at game start
    with Red or Blue to move per configured board setup". *)
Definition newMatch (squares : Squares) (first : PlayerTypesEnum) : Game :=
  mkGame squares (mkMatchState first InProgress None).

(** The states a match can be in: the start, and what an accepted movement
    makes of a state that is still in progress ([Finished] is terminal). *)
Inductive reachable `{Variant} : Game -> Prop :=
| reachable_start squares first : reachable (newMatch squares first)
| reachable_turn g m g' :
    reachable g ->
    status (matchState g) = InProgress ->
    submit g m = inr g' ->
    reachable g'.

(** *** The beam as a sequence of states *)

(** Where the beam stands and the direction it travels in. *)
Definition BeamState := (Location * Orientation)%type.

(** One step of the loop of [beam] that goes on: the next cell is empty, or a
    piece on it reflects the beam.  [None] when the beam ends. *)
Definition next `{Variant} (squares : Squares) (s : BeamState) : option BeamState :=
  let l' := advance (fst s) (snd s) in
  match squareAt squares l' with
  | None => None
  | Some sq =>
      match piece sq with
      | None => Some (l', snd s)
      | Some p =>
          match strike p (snd s) with
          | Reflected d' => Some (l', d')
          | _ => None
          end
      end
  end.

(** The state after [n] steps that go on. *)
Fixpoint orbit `{Variant} (squares : Squares) (n : nat) (s : BeamState)
  : option BeamState :=
  match n with
  | O => Some s
  | S n' => orbit squares n' s ≫= next squares
  end.

(** The same stretch of beam travelled the other way. *)
Definition backwards (s : BeamState) : BeamState :=
  (advance (fst s) (snd s), opposite (snd s)).

Definition horizontal (d : Orientation) : bool :=
  match d with East | West => true | North | South => false end.

(** The two ways a beam can pass a mirror without one being the other
    travelled backwards, told apart by the direction it leaves in. *)
Definition side (m : Diagonal) (d : Orientation) : bool :=
  match m, d with
  | Slash, (North | West) => true
  | Slash, _ => false
  | Backslash, (South | West) => true
  | Backslash, _ => false
  end.

(** The cells ahead of a beam state on a board of [rows] by [cols]. *)
Definition ahead (rows cols : Z) (s : BeamState) : Z :=
  match snd s with
  | North => rowIndex (fst s)
  | South => rows - 1 - rowIndex (fst s)
  | West => colIndex (fst s)
  | East => cols - 1 - colIndex (fst s)
  end.

(** The longest run after a reflection: along a row or along a column. *)
Definition span (rows cols : Z) (along_row : bool) : Z :=
  if along_row then cols - 1 else rows - 1.

(** The cells of [turns] runs that follow a beam first travelling along a row
    ([along_row]) or a column: the runs alternate. *)
Fixpoint runs (rows cols : Z) (along_row : bool) (turns : nat) : Z :=
  match turns with
  | O => 0
  | S t =>
      runs rows cols along_row t
      + span rows cols (if Nat.even (S t) then along_row else negb along_row)
  end.

(** The diagonal of the mirror standing on a square, if one does. *)
Definition mirrorAt `{Variant} (sq : Square) : option Diagonal :=
  match piece sq with
  | Some p =>
      match pieceType p with
      | Pyramid | Scarab => Some (mirrorOf (pieceType p) (orientation p))
      | _ => None
      end
  | None => None
  end.

(** Whether a reflective piece stands at the place of the state. *)
Definition onMirror (squares : Squares) (s : BeamState) : bool :=
  match squareAt squares (fst s) with
  | Some sq => isReflective sq
  | None => false
  end.

(** The steps among the first [n] of the beam that were reflections. *)
Definition reflections `{Variant} (squares : Squares) (s0 : BeamState) (n : nat)
  : list nat :=
  List.filter
    (fun i => match orbit squares i s0 with
              | Some s => onMirror squares s
              | None => false
              end)
    (seq 1 n).

(** The side on which the beam passes the mirror it is on after [i] steps,
    and the place it is at. *)
Definition sideAt `{Variant} (squares : Squares) (s0 : BeamState) (i : nat) : bool :=
  match orbit squares i s0 with
  | Some s =>
      match squareAt squares (fst s) ≫= mirrorAt with
      | Some m => side m (snd s)
      | None => false
      end
  | None => false
  end.

Definition placeAt `{Variant} (squares : Squares) (s0 : BeamState) (i : nat)
  : Location :=
  match orbit squares i s0 with
  | Some s => fst s
  | None => mkLocation 0 0
  end.

(** The places of the reflective pieces of the board. *)
Definition mirrors (squares : Squares) : list Location :=
  location <$> List.filter isReflective (concat squares).

(** ** The sizes in binary64

    A JavaScript number is a binary64 floating-point number.  The sizes above
    are written over the rationals, where each is the expression the code
    evaluates; what the code's arithmetic gives for the widths a page has is
    stated of the same expressions over the kernel's binary64 numbers. *)
Module Binary64.

(** App.js 96-103. *)
Definition getBoardSize (stageWidth : float) : float := stageWidth.

Definition getCellSize (stageWidth : float) : float :=
  (getBoardSize stageWidth / 10)%float.

(** App.js 298: the [width] and [height] of the [Stage]. *)
Definition stageWidthProp (stageWidth : float) : float := getBoardSize stageWidth.

Definition stageHeightProp (stageWidth : float) : float :=
  (getBoardSize stageWidth - 2 * getCellSize stageWidth)%float.





End Binary64.

(** ** The store ([redux/slices/gameSlice]), from the specification *)

(** [state.game], as the selectors of App.js 27-33 read it. *)
Record GameState := mkGameState {
  gameAiEnabled : bool;
  gameSquares : Squares;
  gameTurn : PlayerTypesEnum;
  gameLaserPath : list (list Z);
  gameLaserTriggered : bool;
  gameStatus : MatchStatus;
  gameWinner : option PlayerTypesEnum
}.

(** Modelled from the spec: the path of the laser as the store holds it, "a
    finite ordered sequence of Locations (or coordinate pairs)": the pairs
    that [drawLaser] flattens into the points of a line, the column of a cell
    and then its row. *)
Definition pathPairs (cells : list Location) : list (list Z) :=
  (fun l => [colIndex l; rowIndex l]) <$> cells.

(** What the slice takes from its collaborators (sections 6 and 9): the
    layout at the start and the movement the automated opponent chooses, if
    it has one. *)
Class Collaborators := {
  startingSquares : Squares;
  chooseMovement : Squares -> PlayerTypesEnum -> option Movement
}.

(** Modelled from the spec: the reducer of [playerMove], the turn of section
    4.3 up to the win check: "Board.apply, then Laser Engine.fire (using
    updated board, active player's own emitter), then if casualty present,
    Board removes that piece, then if the casualty was a Pharaoh, Match State
    becomes Finished with winner = the player who fired".  The store keeps
    the path of the beam for [drawLaser].  The active player is not flipped
    here: the flip is an action of its own, [togglePlayerTurn], which [App]
    dispatches (App.js 70-82). *)
Definition playerMoveReducer `{Variant} (s : GameState) (plain : Plain)
  : EngineError + GameState :=
  let rows := Z.of_nat (length (gameSquares s)) in
  let cols := Z.of_nat (max_list (length <$> gameSquares s)) in
  match deserialize rows cols plain with
  | inl e => inl e
  | inr m =>
      match pieceAt (gameSquares s) (srcLocation m) with
      | None => inl IllegalMoveError
      | Some p =>
          if bool_decide (owner p = gameTurn s) then
            match applyMovement (gameSquares s) m with
            | inl e => inl e
            | inr moved =>
                let result := resolveLaser moved (gameTurn s) in
                let cleared :=
                  match casualty result with
                  | Some l => setPiece moved l None
                  | None => moved
                  end in
                let won :=
                  match casualty result with
                  | Some l => isPharaoh (pieceAt moved l)
                  | None => false
                  end in
                inr (mkGameState (gameAiEnabled s) cleared (gameTurn s)
                       (pathPairs (path result)) true
                       (if won then Finished else gameStatus s)
                       (if won then Some (gameTurn s) else gameWinner s))
            end
          else inl OutOfTurnError
      end
  end.

(** Modelled from the spec: the reducers of the slice, by the names of the
    actions [App] dispatches: [setBoardType] sets up the board,
    [togglePlayerTurn] flips the active player, [hideLaserBeam] takes the
    beam away, [toggleAI] switches the AI mode, and [aiMove] plays the
    movement the automated opponent chooses; a rejected movement leaves the
    state as it was. *)
Definition gameReducer `{Variant} `{Collaborators} (s : GameState) (a : Action)
  : GameState :=
  match a with
  | setBoardType =>
      mkGameState (gameAiEnabled s) startingSquares (gameTurn s)
        (gameLaserPath s) (gameLaserTriggered s) (gameStatus s) (gameWinner s)
  | togglePlayerTurn =>
      mkGameState (gameAiEnabled s) (gameSquares s) (otherPlayer (gameTurn s))
        (gameLaserPath s) (gameLaserTriggered s) (gameStatus s) (gameWinner s)
  | hideLaserBeam =>
      mkGameState (gameAiEnabled s) (gameSquares s) (gameTurn s)
        [] false (gameStatus s) (gameWinner s)
  | playerMove plain =>
      match playerMoveReducer s plain with
      | inr s' => s'
      | inl _ => s
      end
  | aiMove =>
      match chooseMovement (gameSquares s) (gameTurn s) with
      | Some m =>
          match playerMoveReducer s (serialize m) with
          | inr s' => s'
          | inl _ => s
          end
      | None => s
      end
  | toggleAI =>
      mkGameState (negb (gameAiEnabled s)) (gameSquares s) (gameTurn s)
        (gameLaserPath s) (gameLaserTriggered s) (gameStatus s) (gameWinner s)
  end.




(** ** The timers of the AI effect

    The effect of App.js 85-93 in time.  React runs the effect after the
    first render and after every render in which [turn] or [aiEnabled] is not
    what it was; a timer it sets fires 500 ms later and dispatches, whatever
    the store holds by then: the effect returns no cleanup and nothing calls
    [clearTimeout].  The store is any store with the two values the effect
    depends on. *)

(** What happened on the page: the effect ran after a render with these
    values, or an action reached the store while it held these values. *)
Inductive Happening :=
| EffectRan (time : Z) (turn : PlayerTypesEnum) (aiEnabled : bool)
| Reached (time : Z) (a : Action) (turn : PlayerTypesEnum) (aiEnabled : bool).

(** What is dispatched otherwise: by a handler of the page or by the timer of
    the laser effect, at [time]; or the pending timer that is due first
    fires. *)
Inductive Event :=
| Handler (time : Z) (a : Action)
| TimerFires.

Definition isAiMove (a : Action) : bool :=
  match a with aiMove => true | _ => false end.

(** The values the effect last ran with; the log has what happened last
    first. *)
Fixpoint lastSeen (log : list Happening) : option (PlayerTypesEnum * bool) :=
  match log with
  | [] => None
  | EffectRan _ turn aiEnabled :: _ => Some (turn, aiEnabled)
  | Reached _ _ _ _ :: earlier => lastSeen earlier
  end.

(** Every action reached the store while it held the values the effect had
    last run with. *)
Fixpoint asLastSeen (log : list Happening) : Prop :=
  match log with
  | [] => True
  | EffectRan _ _ _ :: earlier => asLastSeen earlier
  | Reached _ _ turn aiEnabled :: earlier =>
      lastSeen earlier = Some (turn, aiEnabled) /\ asLastSeen earlier
  end.

(** The pending timer that is due first, the one set first among equals, and
    the others. *)
Fixpoint takeEarliest (pending : list (Z * Timeout))
  : option ((Z * Timeout) * list (Z * Timeout)) :=
  match pending with
  | [] => None
  | p :: rest =>
      match takeEarliest rest with
      | None => Some (p, [])
      | Some (q, rest') =>
          if bool_decide (fst p <= fst q) then Some (p, rest)
          else Some (q, p :: rest')
      end
  end.

Section Timers.
Context {Store : Type}.
Variable reduce : Store -> Action -> Store.
Variable turnOf : Store -> PlayerTypesEnum.
Variable aiEnabledOf : Store -> bool.

Record World := mkWorld {
  worldNow : Z;
  worldStore : Store;
  worldPending : list (Z * Timeout);
  worldLog : list Happening
}.

(** [dispatch(a)]: the store takes the action, [App] renders again, and the
    effect runs if one of its dependencies changed, setting its timers. *)
Definition dispatch (w : World) (a : Action) : World :=
  let before := worldStore w in
  let after := reduce before a in
  let reached := Reached (worldNow w) a (turnOf before) (aiEnabledOf before) in
  if bool_decide (turnOf after = turnOf before
                  /\ aiEnabledOf after = aiEnabledOf before) then
    mkWorld (worldNow w) after (worldPending w) (reached :: worldLog w)
  else
    mkWorld (worldNow w) after
      (worldPending w
       ++ map (fun t => (worldNow w + ms t, t))
            (aiEffect (turnOf after) (aiEnabledOf after)))
      (EffectRan (worldNow w) (turnOf after) (aiEnabledOf after)
       :: reached :: worldLog w).

(** The page at time 0: the effects of the first render run, the one of
    App.js 51-65 dispatching [setBoardType]. *)
Definition mount (s : Store) : World :=
  dispatch
    (mkWorld 0 s
       (map (fun t => (ms t, t)) (aiEffect (turnOf s) (aiEnabledOf s)))
       [EffectRan 0 (turnOf s) (aiEnabledOf s)])
    setBoardType.

(** One event.  A handler cannot run before the present or while a timer that
    was due earlier has not fired, and [aiMove] is dispatched by the timer of
    the effect only; [None] for an event that cannot happen. *)
Definition step (w : World) (e : Event) : option World :=
  match e with
  | Handler time a =>
      if bool_decide (worldNow w <= time
                      /\ Forall (fun p => time <= fst p) (worldPending w))
         && negb (isAiMove a)
      then
        Some (dispatch
                (mkWorld time (worldStore w) (worldPending w) (worldLog w)) a)
      else None
  | TimerFires =>
      match takeEarliest (worldPending w) with
      | Some (p, rest) =>
          Some (foldl dispatch
                  (mkWorld (fst p) (worldStore w) rest (worldLog w))
                  (callback (snd p)))
      | None => None
      end
  end.

Fixpoint run (w : World) (events : list Event) : option World :=
  match events with
  | [] => Some w
  | e :: rest =>
      match step w e with
      | Some w' => run w' rest
      | None => None
      end
  end.

(** What holds of every timer that is pending and of every [aiMove] that
    reached the store: the effect set the timer, 500 ms before it is due, as
    it ran on Red's turn with the AI mode enabled. *)
Definition scheduledOnRed (w : World) : Prop :=
  (forall p, p ∈ worldPending w ->
             snd p = mkTimeout [aiMove] 500
             /\ EffectRan (fst p - 500) RED true ∈ worldLog w)
  /\ (forall time turn aiEnabled,
         Reached time aiMove turn aiEnabled ∈ worldLog w ->
         EffectRan (time - 500) RED true ∈ worldLog w).

(** The log tells what the store holds. *)
Definition upToDate (w : World) : Prop :=
  lastSeen (worldLog w)
  = Some (turnOf (worldStore w), aiEnabledOf (worldStore w))
  /\ asLastSeen (worldLog w).

End Timers.

(** *** Konva's painting of a circle: the stroke lies on the outline, half
    of its width outside. *)
Definition circlePaintedRadius (c : CircleProps) : Q :=
  (circleRadius c + circleStrokeWidth c / 2)%Q.

(** ** Setups *)

(** Modelled from the spec: the layout a collaborator supplies at match
    start (section 6, "Board setup"): the squares of rows of optional pieces,
    each square recording the place it stands at. *)
Definition layout (pieces : list (list (option Piece))) : Squares :=
  imap (fun r row =>
          imap (fun c p => mkSquare (mkLocation (Z.of_nat r) (Z.of_nat c)) p) row)
       pieces.

(** The variant of the classic game on its board of 8 rows and 10 columns:
    the mirror of a piece facing North or South lies on the backslash
    diagonal and that of a piece facing East or West on the slash diagonal; a
    Pyramid shows its mirror to the side it faces and to the side clockwise
    of it; a Sphinx may face any square of the board. *)
Definition classicKhet : Variant := {|
  mirrorOf := fun _ o =>
    match o with
    | North | South => Backslash
    | East | West => Slash
    end;
  pyramidMirrored := fun o d =>
    bool_decide (d = opposite o) || bool_decide (d = opposite (rotateClockwise o));
  sphinxMayFace := fun l o => isInBounds 8 10 (advance l o)
|}.

(** Algebraic notation, a column letter and a row digit, for the boards of
    the examples. *)
Definition algebraic (l : Location) : string :=
  String (ascii_of_nat (97 + Z.to_nat (colIndex l)))
    (String (ascii_of_nat (49 + Z.to_nat (rowIndex l))) EmptyString).

Definition pieceName (p : Piece) : string :=
  playerTypeValue (owner p) +:+ "-" +:+
  match pieceType p with
  | Pharaoh => "pharaoh"
  | Pyramid => "pyramid"
  | Scarab => "scarab"
  | Anubis => "anubis"
  | Sphinx => "sphinx"
  end.

(** The models of the examples: the board of the specification under the
    classic variant. *)
Definition exampleModels : Models := {|
  toANString := algebraic;
  imageName := pieceName;
  getMovesForPieceAtLocation := @movesFor classicKhet
|}.

(** Four Scarabs at the corners of a square, turned so that a beam between
    them would circle for ever; Red's Sphinx fires at one of them from
    outside.  A Pyramid stands inside the ring, next to a Scarab. *)
Definition mirrorRing : Squares :=
  let scarab o := Some (mkPiece Scarab BLUE o) in
  layout
    [[None; None; None; None; None];
     [Some (mkPiece Sphinx RED East); scarab East; None; scarab North; None];
     [None; None; Some (mkPiece Pyramid RED North); None; None];
     [None; scarab North; None; scarab East; None];
     [None; None; None; None; Some (mkPiece Sphinx BLUE North)]].

(** Scenario A of the specification with a piece for Red to move: Red's
    Sphinx faces East along the top row towards Blue's Pharaoh. *)
Definition openFile : Squares :=
  layout
    [[Some (mkPiece Sphinx RED East); None; None; None; None;
      Some (mkPiece Pharaoh BLUE North)];
     [None; None; None; None; None; None];
     [None; None; Some (mkPiece Anubis RED North); None; None; None]].

(** The Scarab at b2 of the ring swapping with the Pyramid at c3. *)
Definition ringSwap : Movement :=
  mkMovement SPECIAL (mkLocation 1 1) (mkLocation 2 2)
    (Some (mkSecondary (mkLocation 2 2) North)).

(** Red moves the Anubis of the open file; the beam then runs along the top
    row into Blue's Pharaoh. *)
Definition anubisStep : Movement :=
  mkMovement NORMAL (mkLocation 2 2) (mkLocation 2 3) None.

Definition afterStrike : Game :=
  match @submit classicKhet (newMatch openFile RED) anubisStep with
  | inr g => g
  | inl _ => newMatch openFile RED
  end.

(** A board of the standard size, 8 rows of 10 squares, with the two
    Sphinxes in their corners. *)
Definition cornerSphinxes : Squares :=
  layout
    ((Some (mkPiece Sphinx RED South) :: replicate 9 None)
     :: replicate 6 (replicate 10 None)
     ++ [replicate 9 None ++ [Some (mkPiece Sphinx BLUE North)]]).




(** Collaborators for the examples: the board of the standard size, and an
    automated opponent that has no movement to offer. *)
Definition exampleCollaborators : Collaborators :=
  {| startingSquares := cornerSphinxes; chooseMovement := fun _ _ => None |}.



(** The store as the page is loaded with the AI mode enabled, Red to move. *)
Definition aiStart : GameState :=
  mkGameState true cornerSphinxes RED [] false InProgress None.

(** * Properties of [src/App.js] *)

Section AppEffects.



Lemma laserEffect_empty : laserEffect [] = [].
Proof. reflexivity. Qed.

(** The effect on the turn schedules [aiMove] if and only if, when it runs,
    the active player is Red and AI mode is enabled; it schedules nothing
    else, and at most one move. *)
Lemma aiEffect_schedules_iff (turn : PlayerTypesEnum) (aiEnabled : bool) :
  let actions := dispatched (aiEffect turn aiEnabled) in
  (aiMove ∈ actions <-> turn = RED /\ aiEnabled = true)
  /\ (forall a, a ∈ actions -> a = aiMove)
  /\ (length actions <= 1)%nat.
Proof.
  assert (Hnil : forall a : Action, a ∈ @nil Action -> a = aiMove)
    by (intros a Hin; inversion Hin).
  assert (Hno : aiMove ∈ @nil Action -> turn = RED /\ aiEnabled = true)
    by (intros Hin; inversion Hin).
  destruct turn, aiEnabled; cbv zeta;
    [change (dispatched (aiEffect RED true)) with [aiMove]
    |change (dispatched (aiEffect _ _)) with (@nil Action) ..]; cbn [length].
  - split; [split; [auto | intros _; constructor] | split; [|lia]].
    intros a Hin. apply list_elem_of_singleton in Hin. exact Hin.
  - split; [split; [exact Hno | intros [_ ?]; discriminate] | split; [exact Hnil | lia]].
  - split; [split; [exact Hno | intros [? _]; discriminate] | split; [exact Hnil | lia]].
  - split; [split; [exact Hno | intros [? _]; discriminate] | split; [exact Hnil | lia]].
Qed.

(** C9.  Whatever the laser path, the empty one included, [drawLaser]
    returns a [Line]: the array of points is truthy, so the branch that
    renders nothing is never taken.  The line has one point coordinate per
    coordinate of the path. *)
Theorem drawLaser_always_renders_line (laserBeamPath : list (list Z)) (stageWidth : Q) :
  exists props,
    drawLaser laserBeamPath stageWidth = Some (Line props)
    /\ length (points props) = length (concat laserBeamPath)
    /\ (laserBeamPath = [] -> points props = []).
Proof.
  unfold drawLaser. cbn [truthy]. eexists. split; [reflexivity|].
  cbn [points]. split.
  - apply length_map.
  - intros ->. reflexivity.
Qed.

End AppEffects.

Section Geometry.
Local Open Scope Q_scope.

Lemma getCellSize_tenth (w : Q) : 10 * getCellSize w == w.
Proof. unfold getCellSize, getBoardSize. field. Qed.

Lemma cell_fits (w : Q) (k n : Z) :
  0 < w ->
  (0 <= inject_Z k * getCellSize w
   /\ inject_Z k * getCellSize w + getCellSize w <= inject_Z n * getCellSize w)
  <-> (0 <= k < n)%Z.
Proof.
  intros Hw.
  assert (Hc : 0 < getCellSize w).
  { pose proof (getCellSize_tenth w). nra. }
  set (c := getCellSize w) in *.
  split.
  - intros [H1 H2]. split.
    + apply Z.le_ngt. intros Hneg.
      assert (Hk : (k <= -1)%Z) by lia. rewrite Zle_Qle in Hk.
      change (inject_Z (-1)) with (-1) in Hk. nra.
    + apply Z.lt_nge. intros Hge. rewrite Zle_Qle in Hge. nra.
  - intros [H1 H2]. rewrite Zle_Qle in H1.
    assert (H3 : (k + 1 <= n)%Z) by lia.
    rewrite Zle_Qle, inject_Z_plus in H3.
    change (inject_Z 0) with 0 in H1. change (inject_Z 1) with 1 in H3.
    split; nra.
Qed.

End Geometry.

Section Highlights.
Context `{Models}.
Local Open Scope Q_scope.

Lemma circlesOf_map_circle {A} (f : A -> CircleProps) (l : list A) :
  circlesOf (Children (map (fun x => Circle (f x)) l)) = map f l.
Proof.
  induction l as [|x l IH]; [reflexivity|].
  cbn in *. rewrite IH. reflexivity.
Qed.

Lemma circlesOfAll_frame (r : RectProps) (e : Element) :
  circlesOfAll [Rect r; e] = circlesOf e.
Proof. unfold circlesOfAll. cbn. apply app_nil_r. Qed.

(** C6.  With a location selected, [drawHighlight] asks the board for the
    moves at that location and returns, besides the frame of the selected
    square, exactly one circle per movement, the i-th circle at the cell of
    the i-th movement's destination; with nothing selected it returns
    nothing. *)
Theorem drawHighlight_one_marker_per_move
    (squares : Squares) (stageWidth : Q) (selected : Location) :
  (exists elements,
      drawHighlight (Some selected) squares stageWidth = Some elements
      /\ length (circlesOfAll elements)
         = length (getMovesForPieceAtLocation squares selected)
      /\ forall (i : nat) (move : Movement),
           getMovesForPieceAtLocation squares selected !! i = Some move ->
           exists marker,
             circlesOfAll elements !! i = Some marker
             /\ circleX marker
                == inject_Z (colIndex (destLocation move)) * getCellSize stageWidth
             /\ circleY marker
                == inject_Z (rowIndex (destLocation move)) * getCellSize stageWidth)
  /\ drawHighlight None squares stageWidth = None.
Proof.
  split; [|reflexivity].
  unfold drawHighlight. cbn [isEmpty negb].
  eexists. split; [reflexivity|].
  rewrite circlesOfAll_frame, circlesOf_map_circle.
  split; [apply length_map|].
  intros i move Hi.
  eexists. split.
  - change (map ?f ?l) with (f <$> l). rewrite list_lookup_fmap, Hi. reflexivity.
  - cbn [circleX circleY]. split; reflexivity.
Qed.
End Highlights.

(** * Movement serialization *)

Section Serialization.

Lemma movementTypeOfName_name (t : MovementTypesEnum) :
  movementTypeOfName (movementTypeName t) = Some t.
Proof. destruct t; reflexivity. Qed.

Lemma orientationOfName_name (o : Orientation) :
  orientationOfName (orientationName o) = Some o.
Proof. destruct o; reflexivity. Qed.

Lemma deserializeLocation_serializeLocation (rows cols : Z) (l : Location) :
  isInBounds rows cols l = true ->
  deserializeLocation rows cols (serializeLocation l) = inr l.
Proof.
  intros Hin. destruct l as [r c]. cbn in *. rewrite Hin. reflexivity.
Qed.

(** A location off the board does not survive the round trip: it is
    reported as invalid. *)
Lemma deserializeLocation_out_of_bounds (rows cols : Z) (l : Location) :
  isInBounds rows cols l = false ->
  deserializeLocation rows cols (serializeLocation l) = inl InvalidLocationError.
Proof.
  intros Hout. destruct l as [r c]. cbn in *. rewrite Hout. reflexivity.
Qed.

Lemma deserialize_serialize (rows cols : Z) (m : Movement) :
  movementInBounds rows cols m = true ->
  deserialize rows cols (serialize m) = inr m.
Proof.
  unfold movementInBounds. intros Hin.
  apply andb_prop in Hin as [Hin Hsec]. apply andb_prop in Hin as [Hsrc Hdest].
  destruct m as [t src dest sec]. cbn [srcLocation destLocation secondary] in *.
  unfold serialize, deserialize.
  cbn [movementType srcLocation destLocation secondary].
  cbn [app field String.eqb Ascii.eqb Bool.eqb].
  rewrite movementTypeOfName_name.
  rewrite !deserializeLocation_serializeLocation by assumption.
  destruct sec as [[sl so]|].
  - unfold deserializeSecondary. cbn [app field String.eqb Ascii.eqb Bool.eqb].
    cbn [secondaryLocation secondaryOrientation] in *.
    rewrite orientationOfName_name.
    rewrite deserializeLocation_serializeLocation by assumption.
    reflexivity.
  - reflexivity.
Qed.

Context `{Models}.

Lemma onMove_submits (layer : list BoardPieceProps) (m : Movement)
    (srcPieceXY : Q * Q) (effects : list Effect) :
  onMove layer m srcPieceXY = inr effects ->
  submitted effects = [serialize m].
Proof.
  unfold onMove. intros Hrun.
  destruct (bool_decide (movementType m = SPECIAL)) eqn:Hs.
  - apply bool_decide_eq_true in Hs.
    destruct (find layer (toANString (destLocation m)) !! 0%nat); [|discriminate].
    rewrite Hs in Hrun. cbn in Hrun. injection Hrun as <-. reflexivity.
  - destruct (movementType m); injection Hrun as <-; reflexivity.
Qed.

End Serialization.

(** * The board *)

Section BoardFacts.

Lemma squareAt_Some (squares : Squares) (l : Location) (s : Square) :
  squareAt squares l = Some s <->
  0 <= rowIndex l /\ 0 <= colIndex l /\
  exists row, squares !! Z.to_nat (rowIndex l) = Some row
              /\ row !! Z.to_nat (colIndex l) = Some s.
Proof.
  unfold squareAt. case_bool_decide as Hb.
  - destruct (squares !! Z.to_nat (rowIndex l)) as [row|]; cbn.
    + split; [intros Hs; repeat split; try tauto; eauto|].
      intros (_ & _ & row' & [= <-] & Hs). exact Hs.
    + split; [discriminate|]. intros (_ & _ & row' & [=] & _).
  - split; [discriminate|]. intros (? & ? & _). tauto.
Qed.

Lemma squareAt_setPiece (squares : Squares) (l l' : Location) (p : option Piece) :
  squareAt (setPiece squares l p) l'
  = if decide (l = l') then (fun s => mkSquare (location s) p) <$> squareAt squares l'
    else squareAt squares l'.
Proof.
  unfold setPiece. case_bool_decide as Hl.
  - unfold squareAt. case_bool_decide as Hl'.
    + rewrite list_lookup_alter.
      destruct (decide (Z.to_nat (rowIndex l) = Z.to_nat (rowIndex l'))) as [Hr|Hr].
      * rewrite Hr.
        destruct (squares !! Z.to_nat (rowIndex l')) as [row|] eqn:Hrow; cbn.
        -- rewrite list_lookup_alter.
           destruct (decide (Z.to_nat (colIndex l) = Z.to_nat (colIndex l'))) as [Hc|Hc].
           ++ rewrite Hc, decide_True; [reflexivity|].
              destruct l, l'; cbn in *. f_equal; lia.
           ++ rewrite decide_False; [reflexivity|]. intros ->. apply Hc. reflexivity.
        -- destruct (decide (l = l')); reflexivity.
      * rewrite decide_False; [reflexivity|]. intros ->. apply Hr. reflexivity.
    + destruct (decide (l = l')); reflexivity.
  - destruct (decide (l = l')) as [<-|]; [|reflexivity].
    unfold squareAt. rewrite bool_decide_eq_false_2 by assumption. reflexivity.
Qed.

Lemma pieceAt_setPiece_same (squares : Squares) (l : Location) (p : option Piece) :
  is_Some (squareAt squares l) ->
  pieceAt (setPiece squares l p) l = p.
Proof.
  intros [s Hs]. unfold pieceAt. rewrite squareAt_setPiece, decide_True by reflexivity.
  rewrite Hs. reflexivity.
Qed.

Lemma pieceAt_setPiece_other (squares : Squares) (l l' : Location) (p : option Piece) :
  l <> l' ->
  pieceAt (setPiece squares l p) l' = pieceAt squares l'.
Proof.
  intros Hne. unfold pieceAt. rewrite squareAt_setPiece, decide_False by assumption.
  reflexivity.
Qed.

Lemma pieceAt_Some_square (squares : Squares) (l : Location) (p : Piece) :
  pieceAt squares l = Some p ->
  exists s, squareAt squares l = Some s /\ piece s = Some p.
Proof.
  unfold pieceAt. destruct (squareAt squares l) as [s|]; [|discriminate].
  cbn. eauto.
Qed.

Lemma squareAt_in_bounds (rows cols : nat) (squares : Squares)
    (l : Location) (sq : Square) :
  boardOfSize rows cols squares ->
  squareAt squares l = Some sq ->
  isInBounds (Z.of_nat rows) (Z.of_nat cols) l = true.
Proof.
  intros [Hrows Hcols] Hsq.
  apply squareAt_Some in Hsq as (Hr & Hc & row & Hrow & Hcol).
  pose proof (lookup_lt_Some _ _ _ Hrow) as Hlt.
  pose proof (lookup_lt_Some _ _ _ Hcol) as Hlt'.
  rewrite (Forall_lookup_1 _ _ _ _ Hcols Hrow) in Hlt'.
  unfold isInBounds. apply bool_decide_eq_true. lia.
Qed.

End BoardFacts.

Section MoveFacts.
Context `{Variant}.

Lemma normalMoves_type (squares : Squares) (src : Location)
    (offsets : list (Z * Z)) (m : Movement) :
  m ∈ normalMoves squares src offsets -> movementType m = NORMAL.
Proof.
  unfold normalMoves. intros Hin. apply list_elem_of_bind in Hin as (o & Hm & _).
  destruct (squareAt squares (offsetBy src o)) as [sq|]; [|inversion Hm].
  destruct (piece sq); [inversion Hm|].
  apply list_elem_of_singleton in Hm as ->. reflexivity.
Qed.

Lemma rotations_type (src : Location) (m : Movement) :
  m ∈ rotations src -> movementType m <> SPECIAL.
Proof.
  unfold rotations. intros Hin.
  repeat (apply elem_of_cons in Hin as [->|Hin]; [discriminate|]).
  inversion Hin.
Qed.

Lemma specialMoves_spec (squares : Squares) (src : Location) (m : Movement) :
  m ∈ specialMoves squares src <->
  exists o occupant,
    o ∈ eightNeighbours
    /\ pieceAt squares (offsetBy src o) = Some occupant
    /\ swapEligible occupant = true
    /\ m = mkMovement SPECIAL src (offsetBy src o)
             (Some (mkSecondary (offsetBy src o) (orientation occupant))).
Proof.
  unfold specialMoves. rewrite list_elem_of_bind. split.
  - intros (o & Hm & Ho).
    destruct (pieceAt squares (offsetBy src o)) as [occupant|] eqn:Hocc; [|inversion Hm].
    destruct (swapEligible occupant) eqn:He; [|inversion Hm].
    apply list_elem_of_singleton in Hm. eauto 10.
  - intros (o & occupant & Ho & Hocc & He & ->).
    exists o. rewrite Hocc, He. split; [constructor | exact Ho].
Qed.

Lemma eightNeighbours_apart (src : Location) (o : Z * Z) :
  o ∈ eightNeighbours -> offsetBy src o <> src.
Proof.
  unfold eightNeighbours. intros Hin Heq.
  destruct src as [r c]. unfold offsetBy in Heq. cbn in Heq.
  injection Heq as Hr Hc.
  repeat (apply elem_of_cons in Hin as [->|Hin]; [cbn in *; lia|]).
  inversion Hin.
Qed.

(** A Special movement the board offers is a Scarab's, onto a neighbouring
    square that a Pyramid or an Anubis stands on. *)
Lemma movesFor_special (squares : Squares) (src : Location) (m : Movement) :
  m ∈ movesFor squares src ->
  movementType m = SPECIAL ->
  exists scarab occupant,
    srcLocation m = src
    /\ destLocation m <> src
    /\ pieceAt squares src = Some scarab
    /\ pieceType scarab = Scarab
    /\ pieceAt squares (destLocation m) = Some occupant
    /\ swapEligible occupant = true.
Proof.
  unfold movesFor. intros Hin Hs.
  destruct (pieceAt squares src) as [p|] eqn:Hp; [|inversion Hin].
  destruct (pieceType p) eqn:Ht.
  - apply normalMoves_type in Hin. congruence.
  - apply elem_of_app in Hin as [Hin|Hin].
    + apply normalMoves_type in Hin. congruence.
    + apply rotations_type in Hin. contradiction.
  - apply specialMoves_spec in Hin as (o & occupant & Ho & Hocc & He & ->).
    exists p, occupant. cbn.
    repeat split; try assumption. apply eightNeighbours_apart. exact Ho.
  - apply elem_of_app in Hin as [Hin|Hin].
    + apply normalMoves_type in Hin. congruence.
    + apply rotations_type in Hin. contradiction.
  - apply list_elem_of_In, List.filter_In in Hin as [Hin _].
    apply list_elem_of_In, rotations_type in Hin. contradiction.
Qed.

(** The board of the specification offers Special movements only onto
    squares that hold a piece. *)
Lemma movesFor_special_occupied (squares : Squares) (selected : Location)
    (m : Movement) :
  m ∈ movesFor squares selected ->
  movementType m = SPECIAL ->
  is_Some (pieceAt squares (destLocation m)).
Proof.
  intros Hin Hs.
  destruct (movesFor_special _ _ _ Hin Hs) as (_ & occupant & _ & _ & _ & _ & Hocc & _).
  eauto.
Qed.

(** C5.  A Special movement the board offers is applied, and applying it
    puts the former occupant of the destination on the Scarab's origin
    square and the Scarab on the destination; every other square, its piece
    included, is as before. *)
Theorem special_movement_swaps (squares : Squares) (m : Movement) :
  m ∈ movesFor squares (srcLocation m) ->
  movementType m = SPECIAL ->
  exists scarab occupant squares',
    pieceAt squares (srcLocation m) = Some scarab
    /\ pieceType scarab = Scarab
    /\ pieceAt squares (destLocation m) = Some occupant
    /\ swapEligible occupant = true
    /\ applyMovement squares m = inr squares'
    /\ pieceAt squares' (srcLocation m) = Some occupant
    /\ pieceAt squares' (destLocation m) = Some scarab
    /\ forall l, l <> srcLocation m -> l <> destLocation m ->
                 squareAt squares' l = squareAt squares l.
Proof.
  intros Hin Hs.
  destruct (movesFor_special _ _ _ Hin Hs)
    as (scarab & occupant & _ & Hne & Hsrc & Hscarab & Hdest & He).
  exists scarab, occupant, (perform squares m).
  repeat (split; [assumption|]).
  split; [unfold applyMovement; rewrite bool_decide_eq_true_2 by assumption; reflexivity|].
  unfold perform. rewrite Hs, Hsrc, Hdest.
  destruct (pieceAt_Some_square _ _ _ Hsrc) as (ss & Hss & _).
  destruct (pieceAt_Some_square _ _ _ Hdest) as (sd & Hsd & _).
  split; [|split].
  - rewrite pieceAt_setPiece_other by assumption.
    apply pieceAt_setPiece_same. eauto.
  - apply pieceAt_setPiece_same.
    rewrite squareAt_setPiece, decide_False by congruence. eauto.
  - intros l Hl1 Hl2.
    rewrite !squareAt_setPiece, !decide_False by congruence. reflexivity.
Qed.

(** Every movement the board offers names squares of the board only. *)
Lemma movesFor_in_bounds (rows cols : nat) (squares : Squares)
    (src : Location) (m : Movement) :
  boardOfSize rows cols squares ->
  m ∈ movesFor squares src ->
  movementInBounds (Z.of_nat rows) (Z.of_nat cols) m = true.
Proof.
  intros Hsize Hin. unfold movesFor in Hin.
  destruct (pieceAt squares src) as [p|] eqn:Hp; [|inversion Hin].
  destruct (pieceAt_Some_square _ _ _ Hp) as (ss & Hss & _).
  pose proof (squareAt_in_bounds _ _ _ _ _ Hsize Hss) as Hsrc.
  assert (Hnormal : forall offsets,
             m ∈ normalMoves squares src offsets ->
             movementInBounds (Z.of_nat rows) (Z.of_nat cols) m = true).
  { intros offsets Hm. unfold normalMoves in Hm.
    apply list_elem_of_bind in Hm as (o & Hm & _).
    destruct (squareAt squares (offsetBy src o)) as [sq|] eqn:Hsq; [|inversion Hm].
    destruct (piece sq); [inversion Hm|].
    apply list_elem_of_singleton in Hm as ->.
    unfold movementInBounds. cbn.
    rewrite Hsrc, (squareAt_in_bounds _ _ _ _ _ Hsize Hsq). reflexivity. }
  assert (Hrot : m ∈ rotations src ->
                 movementInBounds (Z.of_nat rows) (Z.of_nat cols) m = true).
  { unfold rotations. intros Hm.
    repeat (apply elem_of_cons in Hm as [->|Hm];
            [unfold movementInBounds; cbn; rewrite Hsrc; reflexivity|]).
    inversion Hm. }
  destruct (pieceType p).
  - eauto.
  - apply elem_of_app in Hin as [Hin|Hin]; eauto.
  - apply specialMoves_spec in Hin as (o & occupant & _ & Hocc & _ & ->).
    destruct (pieceAt_Some_square _ _ _ Hocc) as (sd & Hsd & _).
    unfold movementInBounds. cbn.
    rewrite Hsrc, (squareAt_in_bounds _ _ _ _ _ Hsize Hsd). reflexivity.
  - apply elem_of_app in Hin as [Hin|Hin]; eauto.
  - apply list_elem_of_In, List.filter_In in Hin as [Hin _].
    apply list_elem_of_In in Hin. eauto.
Qed.

End MoveFacts.


Section SpecialAnimation.
Context `{Models}.

Lemma squareAt_in_concat (squares : Squares) (l : Location) (s : Square) :
  squareAt squares l = Some s -> s ∈ concat squares.
Proof.
  intros Hs. apply squareAt_Some in Hs as (_ & _ & row & Hrow & Hcol).
  apply list_elem_of_In, in_concat. exists row.
  split; apply list_elem_of_In; eapply list_elem_of_lookup_2; eassumption.
Qed.

Lemma squareAt_location (squares : Squares) (l : Location) (s : Square) :
  wellFormed squares -> squareAt squares l = Some s -> location s = l.
Proof.
  intros Hwf Hs. apply squareAt_Some in Hs as (Hr & Hc & row & Hrow & Hcol).
  rewrite (Hwf _ _ _ _ Hrow Hcol). destruct l as [r c]. cbn in *. f_equal; lia.
Qed.

(** Every square with a piece is drawn, under the id of its location. *)
Lemma drawBoardPieces_draws (squares : Squares) (turn : PlayerTypesEnum)
    (laserIsTriggered : bool) (stageWidth : Q) (s : Square) :
  s ∈ concat squares -> hasPiece s = true ->
  exists node,
    node ∈ drawBoardPieces squares turn laserIsTriggered stageWidth
    /\ bpSquare node = s /\ bpId node = toANString (location s).
Proof.
  intros Hin Hp. eexists. split; [|split].
  - unfold drawBoardPieces. apply list_elem_of_In, in_map_iff.
    exists s. split; [reflexivity|].
    apply List.filter_In. split; [apply list_elem_of_In; exact Hin | exact Hp].
  - reflexivity.
  - reflexivity.
Qed.

Lemma find_head (layer : list BoardPieceProps) (id : string) (node : BoardPieceProps) :
  node ∈ layer -> bpId node = id ->
  exists first, find layer id !! 0%nat = Some first /\ bpId first = id.
Proof.
  intros Hin Hid.
  assert (Hf : node ∈ find layer id).
  { unfold find. apply list_elem_of_In, List.filter_In.
    split; [apply list_elem_of_In; exact Hin | apply bool_decide_eq_true; exact Hid]. }
  destruct (find layer id) as [|first rest] eqn:Hfind; [inversion Hf|].
  exists first. split; [reflexivity|].
  assert (Hfirst : In first (find layer id)) by (rewrite Hfind; left; reflexivity).
  unfold find in Hfirst. apply List.filter_In in Hfirst as [_ Hb].
  apply bool_decide_eq_true in Hb. exact Hb.
Qed.

(** The handler is safe on a Special movement whose destination holds a
    piece: the piece is drawn under the id the handler looks for. *)
Lemma onMove_special_occupied (squares : Squares) (turn : PlayerTypesEnum)
    (laserIsTriggered : bool) (stageWidth : Q) (m : Movement) (srcPieceXY : Q * Q) :
  wellFormed squares ->
  is_Some (pieceAt squares (destLocation m)) ->
  movementType m = SPECIAL ->
  let layer := drawBoardPieces squares turn laserIsTriggered stageWidth in
  let destPieceId := toANString (destLocation m) in
  (exists node,
      node ∈ layer
      /\ squareAt squares (destLocation m) = Some (bpSquare node)
      /\ hasPiece (bpSquare node) = true
      /\ bpId node = destPieceId)
  /\ exists destPieceRaw effects,
       find layer destPieceId !! 0%nat = Some destPieceRaw
       /\ bpId destPieceRaw = destPieceId
       /\ onMove layer m srcPieceXY = inr effects
       /\ Tween destPieceRaw (fst srcPieceXY) (snd srcPieceXY) 0.332%Q ∈ effects.
Proof.
  intros Hwf [occupant Hdest] Hs layer destPieceId.
  destruct (pieceAt_Some_square _ _ _ Hdest) as (sd & Hsd & Hpiece).
  assert (Hhas : hasPiece sd = true) by (unfold hasPiece; rewrite Hpiece; reflexivity).
  destruct (drawBoardPieces_draws squares turn laserIsTriggered stageWidth sd
              (squareAt_in_concat _ _ _ Hsd) Hhas) as (node & Hnode & Hsq & Hid).
  rewrite (squareAt_location _ _ _ Hwf Hsd) in Hid.
  split.
  - exists node. rewrite Hsq. auto.
  - destruct (find_head layer destPieceId node Hnode Hid) as (first & Hfirst & Hfid).
    exists first. eexists. split; [exact Hfirst|]. split; [exact Hfid|].
    unfold onMove. rewrite bool_decide_eq_true_2 by assumption.
    fold destPieceId. rewrite Hfirst. rewrite Hs. cbn.
    split; [reflexivity|]. constructor.
Qed.

(** C10.  Let the board offer Special movements only onto squares that hold
    a piece.  Then on well-formed squares, for every Special movement the
    board offers, the piece on the destination is drawn as a node whose id is
    the algebraic notation of the destination, so the query of the handler is
    not empty: [query[0]] is a node of that id, the handler does not throw,
    and it sends that node to the place the dragged piece came from. *)
Theorem special_move_destination_is_drawn (squares : Squares)
    (turn : PlayerTypesEnum) (laserIsTriggered : bool) (stageWidth : Q)
    (selected : Location) (m : Movement) (srcPieceXY : Q * Q) :
  wellFormed squares ->
  (forall m', m' ∈ getMovesForPieceAtLocation squares selected ->
              movementType m' = SPECIAL ->
              is_Some (pieceAt squares (destLocation m'))) ->
  m ∈ getMovesForPieceAtLocation squares selected ->
  movementType m = SPECIAL ->
  let layer := drawBoardPieces squares turn laserIsTriggered stageWidth in
  let destPieceId := toANString (destLocation m) in
  (exists node,
      node ∈ layer
      /\ squareAt squares (destLocation m) = Some (bpSquare node)
      /\ hasPiece (bpSquare node) = true
      /\ bpId node = destPieceId)
  /\ exists destPieceRaw effects,
       find layer destPieceId !! 0%nat = Some destPieceRaw
       /\ bpId destPieceRaw = destPieceId
       /\ onMove layer m srcPieceXY = inr effects
       /\ Tween destPieceRaw (fst srcPieceXY) (snd srcPieceXY) 0.332%Q ∈ effects.
Proof.
  intros Hwf Hboard Hin Hs.
  apply onMove_special_occupied; auto.
Qed.

End SpecialAnimation.

Section Transport.
Context `{Variant} `{Models}.

(** Whatever the handler hands to the store, at once or from its timer, is
    the serialized movement. *)
Lemma onMove_dispatches (layer : list BoardPieceProps) (m : Movement)
    (srcPieceXY : Q * Q) (effects : list Effect) :
  onMove layer m srcPieceXY = inr effects ->
  (forall a, Dispatch a ∈ effects -> a = playerMove (serialize m))
  /\ (forall t, SetTimeout t ∈ effects ->
        callback t = [playerMove (serialize m)]).
Proof.
  unfold onMove. intros Hrun.
  destruct (bool_decide (movementType m = SPECIAL)) eqn:Hs.
  - apply bool_decide_eq_true in Hs.
    destruct (find layer (toANString (destLocation m)) !! 0%nat) as [node|];
      [|discriminate].
    rewrite Hs in Hrun. cbn in Hrun. injection Hrun as <-. split.
    + intros a Hin. apply elem_of_cons in Hin as [Hin|Hin]; [discriminate|].
      apply list_elem_of_singleton in Hin. discriminate.
    + intros t Hin. apply elem_of_cons in Hin as [Hin|Hin]; [discriminate|].
      apply list_elem_of_singleton in Hin. injection Hin as ->. reflexivity.
  - destruct (movementType m); injection Hrun as <-; cbn; split;
      intros x Hin; apply list_elem_of_singleton in Hin;
      try discriminate; injection Hin as ->; reflexivity.
Qed.

(** A movement that is not Special is handed on whatever the layer holds. *)
Lemma onMove_plain_runs (layer : list BoardPieceProps) (m : Movement)
    (srcPieceXY : Q * Q) :
  movementType m <> SPECIAL ->
  exists effects, onMove layer m srcPieceXY = inr effects.
Proof.
  intros Hs. unfold onMove. rewrite bool_decide_eq_false_2 by assumption.
  eexists. reflexivity.
Qed.

(** C4.  Every movement the board offers, on a well-formed board of [rows]
    by [cols] squares, is read back unchanged from its serialized form (as is
    every movement whose locations lie on the board, [deserialize_serialize]).
    The [onMove] handler of the pieces drawn for that board runs to its end
    on it and hands the store, at once or from its one timer, that
    serialized form and nothing else, from which the engine reads the
    movement back; a movement that is not Special is handed on whatever the
    layer holds, and no run of the handler hands on anything else. *)
Theorem movement_round_trip (rows cols : nat) (squares : Squares) (m : Movement)
    (turn : PlayerTypesEnum) (laserIsTriggered : bool) (stageWidth : Q)
    (srcPieceXY : Q * Q) :
  boardOfSize rows cols squares ->
  wellFormed squares ->
  m ∈ movesFor squares (srcLocation m) ->
  let layer := drawBoardPieces squares turn laserIsTriggered stageWidth in
  deserialize (Z.of_nat rows) (Z.of_nat cols) (serialize m) = inr m
  /\ (exists effects,
         onMove layer m srcPieceXY = inr effects
         /\ submitted effects = [serialize m]
         /\ (forall a, Dispatch a ∈ effects -> a = playerMove (serialize m))
         /\ (forall t, SetTimeout t ∈ effects ->
               callback t = [playerMove (serialize m)])
         /\ Forall (fun plain =>
                      deserialize (Z.of_nat rows) (Z.of_nat cols) plain = inr m)
              (submitted effects))
  /\ (forall layer',
         movementType m <> SPECIAL ->
         exists effects,
           onMove layer' m srcPieceXY = inr effects
           /\ submitted effects = [serialize m])
  /\ (forall layer' effects,
         onMove layer' m srcPieceXY = inr effects ->
         submitted effects = [serialize m]).
Proof.
  intros Hsize Hwf Hin layer.
  assert (Hround : deserialize (Z.of_nat rows) (Z.of_nat cols) (serialize m) = inr m).
  { apply deserialize_serialize. eapply movesFor_in_bounds; eassumption. }
  assert (Hruns : exists effects, onMove layer m srcPieceXY = inr effects).
  { destruct (decide (movementType m = SPECIAL)) as [Hs|Hs].
    - destruct (onMove_special_occupied squares turn laserIsTriggered stageWidth
                  m srcPieceXY Hwf (movesFor_special_occupied _ _ _ Hin Hs) Hs)
        as (_ & _ & effects & _ & _ & Hrun & _).
      exists effects. exact Hrun.
    - apply onMove_plain_runs. exact Hs. }
  split; [exact Hround|]. split; [|split].
  - destruct Hruns as (effects & Hrun). exists effects.
    pose proof (onMove_submits _ _ _ _ Hrun) as Hsub.
    destruct (onMove_dispatches _ _ _ _ Hrun) as [Hd Ht].
    split; [exact Hrun|]. split; [exact Hsub|]. split; [exact Hd|].
    split; [exact Ht|]. rewrite Hsub. constructor; [exact Hround | constructor].
  - intros layer' Hs. destruct (onMove_plain_runs layer' m srcPieceXY Hs)
      as (effects & Hrun).
    exists effects. split; [exact Hrun | eapply onMove_submits; exact Hrun].
  - intros layer' effects. apply onMove_submits.
Qed.

End Transport.

(** * The controller *)

Section Controller.
Context `{Variant}.

(** What an accepted movement makes of the match state: the match ends, won
    by the player who fired, exactly when the beam strikes a Pharaoh;
    otherwise only the active player changes. *)
Lemma submit_outcome (g g' : Game) (m : Movement) :
  submit g m = inr g' ->
  (strikesPharaoh g m = true
   /\ matchState g'
      = mkMatchState (activePlayer (matchState g)) Finished
          (Some (activePlayer (matchState g))))
  \/ (strikesPharaoh g m = false
      /\ matchState g'
         = mkMatchState (otherPlayer (activePlayer (matchState g)))
             (status (matchState g)) (winner (matchState g))).
Proof.
  unfold submit, strikesPharaoh. intros Hsub.
  destruct (pieceAt (board g) (srcLocation m)) as [p|]; [|discriminate].
  destruct (bool_decide (owner p = activePlayer (matchState g))); [|discriminate].
  destruct (applyMovement (board g) m) as [e|moved]; [discriminate|].
  destruct (casualty (resolveLaser moved (activePlayer (matchState g)))) as [l|].
  - destruct (isPharaoh (pieceAt moved l)); injection Hsub as <-; cbn; auto.
  - injection Hsub as <-. cbn. auto.
Qed.

Lemma reachable_winner_iff_finished (g : Game) :
  reachable g ->
  (is_Some (winner (matchState g)) <-> status (matchState g) = Finished).
Proof.
  induction 1 as [squares first | g m g' Hg IH Hopen Hsub].
  - cbn. split; [intros [w Hw]; discriminate | discriminate].
  - destruct (submit_outcome _ _ _ Hsub) as [[_ ->]|[_ ->]]; cbn.
    + split; eauto.
    + exact IH.
Qed.

Lemma renderWinner_iff (w : option PlayerTypesEnum) :
  is_Some (renderWinner w) <-> is_Some w.
Proof.
  destruct w as [[|]|]; cbn; split; intros [x Hx]; try discriminate; eauto.
Qed.

(** The heading names the winner in capitals; it is rendered for a winner
    and for nothing else. *)
Lemma renderWinner_heading (w : option PlayerTypesEnum) :
  renderWinner w
  = match w with
    | Some p =>
        Some (H1 ["🎉 "; toUpperCase (playerTypeValue p); " player wins!"])
    | None => None
    end.
Proof. destruct w as [[|]|]; reflexivity. Qed.

(** C2.  In every state a match can reach, the winner is set exactly when the
    status is Finished, and the page announces the winner exactly when the
    winner is set: for a winner it renders the heading that names that
    player in capitals, a different heading for either player, and with no
    winner it renders nothing; a turn played from a reachable state that is
    still in progress ends the match, with the player who fired as winner,
    exactly when its beam strikes a Pharaoh, and otherwise leaves the match
    in progress with no winner. *)
Theorem winner_set_iff_finished (g : Game) :
  reachable g ->
  let ms := matchState g in
  (is_Some (winner ms) <-> status ms = Finished)
  /\ (is_Some (renderWinner (winner ms)) <-> is_Some (winner ms))
  /\ renderWinner (winner ms)
     = match winner ms with
       | Some p =>
           Some (H1 ["🎉 "; toUpperCase (playerTypeValue p); " player wins!"])
       | None => None
       end
  /\ (forall p, winner ms = Some p ->
         renderWinner (winner ms)
         = Some (H1 ["🎉 ";
                     match p with RED => "RED" | BLUE => "BLUE" end;
                     " player wins!"]))
  /\ (status ms <> Finished -> renderWinner (winner ms) = None)
  /\ forall m g',
       status ms = InProgress ->
       submit g m = inr g' ->
       (strikesPharaoh g m = true <-> status (matchState g') = Finished)
       /\ (strikesPharaoh g m = true ->
           winner (matchState g') = Some (activePlayer ms)
           /\ renderWinner (winner (matchState g'))
              = Some (H1 ["🎉 "; toUpperCase (playerTypeValue (activePlayer ms));
                          " player wins!"]))
       /\ (strikesPharaoh g m = false ->
           status (matchState g') = InProgress
           /\ winner (matchState g') = None
           /\ renderWinner (winner (matchState g')) = None
           /\ activePlayer (matchState g') = otherPlayer (activePlayer ms)).
Proof.
  intros Hg ms. pose proof (reachable_winner_iff_finished g Hg) as Hinv.
  fold ms in Hinv.
  split; [exact Hinv|]. split; [apply renderWinner_iff|].
  split; [apply renderWinner_heading|].
  split; [intros p ->; destruct p; reflexivity|].
  split.
  { intros Hopen. destruct (winner ms) as [w|] eqn:Hw; [|reflexivity].
    exfalso. apply Hopen, Hinv. eauto. }
  intros m g' Hopen Hsub.
  assert (Hnone : winner ms = None).
  { destruct (winner ms) as [w|] eqn:Hw; [|reflexivity].
    assert (Hf : status ms = Finished) by (apply Hinv; eauto). congruence. }
  destruct (submit_outcome _ _ _ Hsub) as [[Hp ->]|[Hp ->]]; fold ms; cbn [status winner activePlayer].
  - rewrite Hp. rewrite renderWinner_heading.
    repeat split; auto; discriminate.
  - rewrite Hp, Hopen, Hnone. repeat split; auto; discriminate.
Qed.

End Controller.

(** * The laser engine *)

Section Directions.

Lemma reflect_involutive (m : Diagonal) (d : Orientation) :
  reflect m (reflect m d) = d.
Proof. destruct m, d; reflexivity. Qed.

Lemma reflect_opposite (m : Diagonal) (d : Orientation) :
  reflect m (opposite d) = opposite (reflect m d).
Proof. destruct m, d; reflexivity. Qed.

Lemma reflect_turns (m : Diagonal) (d : Orientation) :
  horizontal (reflect m d) = negb (horizontal d).
Proof. destruct m, d; reflexivity. Qed.

Lemma reflect_inj (m : Diagonal) (d d' : Orientation) :
  reflect m d = reflect m d' -> d = d'.
Proof.
  intros Heq. rewrite <- (reflect_involutive m d), Heq. apply reflect_involutive.
Qed.

Lemma side_eq (m : Diagonal) (d d' : Orientation) :
  side m d = side m d' -> d' = d \/ d' = opposite (reflect m d).
Proof. destruct m, d, d'; cbn; intros Hs; try discriminate; auto. Qed.

Lemma opposite_involutive (d : Orientation) : opposite (opposite d) = d.
Proof. destruct d; reflexivity. Qed.

Lemma opposite_neq (d : Orientation) : opposite d <> d.
Proof. destruct d; discriminate. Qed.

Lemma advance_opposite (l : Location) (d : Orientation) :
  advance (advance l d) (opposite d) = l.
Proof. destruct l as [r c], d; cbn; f_equal; lia. Qed.

Lemma advance_inj (l l' : Location) (d : Orientation) :
  advance l d = advance l' d -> l = l'.
Proof.
  intros Heq. rewrite <- (advance_opposite l d), Heq. apply advance_opposite.
Qed.

Lemma advance_neq (l : Location) (d : Orientation) : advance l d <> l.
Proof. destruct l as [r c], d; cbn; intros [=]; lia. Qed.

Lemma backwards_involutive (s : BeamState) : backwards (backwards s) = s.
Proof.
  destruct s as [l d]. unfold backwards. cbn.
  rewrite advance_opposite, opposite_involutive. reflexivity.
Qed.

Lemma backwards_neq (s : BeamState) : backwards s <> s.
Proof. destruct s as [l d]. unfold backwards. cbn. intros [= _ Hd]. exact (opposite_neq _ Hd). Qed.

End Directions.

Section Steps.
Context `{Variant}.
Variable squares : Squares.

(** A step that goes on enters the next cell, and either the cell is empty
    and the direction is kept, or a mirror stands there and turns the beam. *)
Lemma next_Some (s s' : BeamState) :
  next squares s = Some s' ->
  fst s' = advance (fst s) (snd s)
  /\ exists sq,
       squareAt squares (fst s') = Some sq
       /\ ((piece sq = None /\ isReflective sq = false /\ snd s' = snd s)
           \/ (exists m, mirrorAt sq = Some m /\ isReflective sq = true
                         /\ snd s' = reflect m (snd s))).
Proof.
  unfold next. destruct s as [l d], s' as [l' d']. cbn [fst snd].
  destruct (squareAt squares (advance l d)) as [sq|] eqn:Hsq; [|discriminate].
  unfold mirrorAt, isReflective, strike.
  destruct (piece sq) as [p|] eqn:Hp.
  - destruct (pieceType p) eqn:Ht; try discriminate.
    + destruct (pyramidMirrored (orientation p) d); [|discriminate].
      intros [= <- <-]. split; [reflexivity|]. exists sq. rewrite Hp, Ht. eauto 10.
    + intros [= <- <-]. split; [reflexivity|]. exists sq. rewrite Hp, Ht. eauto 10.
    + destruct (bool_decide (d = opposite (orientation p))); discriminate.
  - intros [= <- <-]. split; [reflexivity|]. exists sq. rewrite Hp. auto.
Qed.

Lemma next_inj (a a' b : BeamState) :
  next squares a = Some b -> next squares a' = Some b -> a = a'.
Proof.
  intros Ha Ha'.
  apply next_Some in Ha as (Hl & sq & Hsq & Hcase).
  apply next_Some in Ha' as (Hl' & sq' & Hsq' & Hcase').
  rewrite Hsq in Hsq'. injection Hsq' as <-.
  destruct a as [l d], a' as [l' d'], b as [lb db]. cbn [fst snd] in *.
  assert (Hd : d = d').
  { destruct Hcase as [(Hp & Hr & ->)|(m & Hm & Hr & ->)];
      destruct Hcase' as [(Hp' & Hr' & Hd')|(m' & Hm' & Hr' & Hd')]; try congruence.
    rewrite Hm in Hm'. injection Hm' as <-. eapply reflect_inj. exact Hd'. }
  subst d'. f_equal. apply (advance_inj _ _ d). congruence.
Qed.

Lemma next_turn (s s' : BeamState) :
  next squares s = Some s' ->
  (onMirror squares s' = false /\ snd s' = snd s)
  \/ (onMirror squares s' = true /\ horizontal (snd s') = negb (horizontal (snd s))).
Proof.
  intros Hn. apply next_Some in Hn as (_ & sq & Hsq & Hcase).
  unfold onMirror. rewrite Hsq.
  destruct Hcase as [(_ & Hr & Hd)|(m & _ & Hr & Hd)]; [left|right]; split; auto.
  rewrite Hd. apply reflect_turns.
Qed.

(** If a step leads to [b] and another leads to the start of the first one
    travelled backwards, the second one started from [b] backwards. *)
Lemma next_backwards (a a' b : BeamState) :
  next squares a = Some b ->
  next squares a' = Some (backwards a) ->
  a' = backwards b.
Proof.
  intros Ha Ha'.
  apply next_Some in Ha as (Hl & sq & Hsq & Hcase).
  apply next_Some in Ha' as (Hl' & sq' & Hsq' & Hcase').
  destruct a as [l d], a' as [l' d'], b as [lb db].
  unfold backwards in *. cbn [fst snd] in *. subst lb.
  rewrite Hsq in Hsq'. injection Hsq' as <-.
  assert (Hd : d' = opposite db).
  { destruct Hcase as [(Hp & Hr & ->)|(m & Hm & Hr & ->)];
      destruct Hcase' as [(Hp' & Hr' & Hd')|(m' & Hm' & Hr' & Hd')]; try congruence.
    rewrite Hm in Hm'. injection Hm' as <-.
    apply (reflect_inj m). rewrite <- Hd'. rewrite reflect_opposite, reflect_involutive.
    reflexivity. }
  subst d'. f_equal.
  rewrite <- (advance_opposite l' (opposite db)), <- Hl', opposite_involutive.
  reflexivity.
Qed.

Lemma next_not_backwards (a : BeamState) : next squares a <> Some (backwards a).
Proof.
  intros Hn. apply next_Some in Hn as (_ & sq & _ & Hcase).
  destruct a as [l d]. unfold backwards in *. cbn [fst snd] in *.
  destruct Hcase as [(_ & _ & Hd)|(m & _ & _ & Hd)].
  - exact (opposite_neq _ Hd).
  - destruct m, d; discriminate.
Qed.

End Steps.

Section Orbit.
Context `{Variant}.
Variable squares : Squares.
Variable s0 : BeamState.

(** The beam starts on the square of a Sphinx. *)
Hypothesis start_on_sphinx :
  exists sq p, squareAt squares (fst s0) = Some sq
               /\ piece sq = Some p /\ pieceType p = Sphinx.

Lemma orbit_front (n : nat) (s : BeamState) :
  orbit squares (S n) s = next squares s ≫= orbit squares n.
Proof.
  induction n as [|n IH]; cbn [orbit] in *.
  - cbn. destruct (next squares s); reflexivity.
  - rewrite IH. destruct (next squares s) as [s'|]; reflexivity.
Qed.

Lemma orbit_step (n : nat) (s : BeamState) :
  orbit squares (S n) s0 = Some s ->
  exists a, orbit squares n s0 = Some a /\ next squares a = Some s.
Proof.
  cbn [orbit]. destruct (orbit squares n s0) as [a|]; [|discriminate].
  cbn. eauto.
Qed.

Lemma orbit_prefix (n i : nat) :
  is_Some (orbit squares n s0) -> (i <= n)%nat -> is_Some (orbit squares i s0).
Proof.
  intros Hn Hi. induction Hi as [|n Hi IH]; [exact Hn|].
  apply IH. destruct Hn as [s Hs]. apply orbit_step in Hs as (a & Ha & _). eauto.
Qed.

Lemma next_not_start (a : BeamState) : next squares a <> Some s0.
Proof.
  intros Hn. apply next_Some in Hn as (_ & sq & Hsq & Hcase).
  destruct start_on_sphinx as (sq' & p & Hsq' & Hp & Ht).
  rewrite Hsq in Hsq'. injection Hsq' as <-.
  destruct Hcase as [(Hnone & _)|(m & Hm & _)]; [congruence|].
  unfold mirrorAt in Hm. rewrite Hp, Ht in Hm. discriminate.
Qed.

(** The beam is never twice in the same state. *)
Lemma orbit_inj (i j : nat) (s : BeamState) :
  orbit squares i s0 = Some s -> orbit squares j s0 = Some s -> i = j.
Proof.
  revert j s. induction i as [|i IH]; intros [|j] s Hi Hj; [reflexivity| | |].
  - injection Hi as <-. apply orbit_step in Hj as (a & _ & Ha).
    destruct (next_not_start _ Ha).
  - injection Hj as <-. apply orbit_step in Hi as (a & _ & Ha).
    destruct (next_not_start _ Ha).
  - apply orbit_step in Hi as (a & Hi & Ha).
    apply orbit_step in Hj as (a' & Hj & Ha').
    rewrite (next_inj _ _ _ _ Ha Ha') in Hi. f_equal. eapply IH; eassumption.
Qed.

Lemma orbit_no_backwards_lt (j i : nat) (a : BeamState) :
  (i < j)%nat ->
  orbit squares i s0 = Some a ->
  orbit squares j s0 = Some (backwards a) -> False.
Proof.
  revert i a. induction j as [|j IH]; intros i a Hlt Hi Hj; [lia|].
  apply orbit_step in Hj as (x & Hx & Hnx).
  destruct (decide (i = j)) as [->|Hne].
  - rewrite Hi in Hx. injection Hx as <-. exact (next_not_backwards _ _ Hnx).
  - destruct (orbit_prefix j (S i)) as [b Hb]; [eauto | lia |].
    pose proof Hb as Hb'. apply orbit_step in Hb' as (a' & Ha' & Hnb).
    rewrite Hi in Ha'. injection Ha' as <-.
    pose proof (next_backwards _ _ _ _ Hnb Hnx) as ->.
    destruct (decide (S i = j)) as [<-|Hne'].
    + rewrite Hb in Hx. injection Hx as Hx. symmetry in Hx. exact (backwards_neq _ Hx).
    + apply (IH (S i) b); [lia | exact Hb | exact Hx].
Qed.

(** The beam never travels a stretch it has travelled, the other way. *)
Lemma orbit_no_backwards (i j : nat) (a : BeamState) :
  orbit squares i s0 = Some a ->
  orbit squares j s0 = Some (backwards a) -> False.
Proof.
  intros Hi Hj. destruct (Nat.lt_trichotomy i j) as [Hlt|[->|Hgt]].
  - exact (orbit_no_backwards_lt j i a Hlt Hi Hj).
  - rewrite Hi in Hj. injection Hj as Hj. symmetry in Hj. exact (backwards_neq _ Hj).
  - apply (orbit_no_backwards_lt i j (backwards a) Hgt Hj).
    rewrite backwards_involutive. exact Hi.
Qed.

End Orbit.

Section ListFacts.
Context {A : Type}.

Lemma elem_of_List_filter (f : A -> bool) (l : list A) (x : A) :
  x ∈ List.filter f l <-> x ∈ l /\ f x = true.
Proof. rewrite !list_elem_of_In. apply List.filter_In. Qed.

Lemma NoDup_List_filter (f : A -> bool) (l : list A) :
  NoDup l -> NoDup (List.filter f l).
Proof. rewrite !NoDup_ListNoDup. apply List.NoDup_filter. Qed.

Lemma length_List_filter_split (g : A -> bool) (l : list A) :
  length l
  = (length (List.filter g l) + length (List.filter (fun x => negb (g x)) l))%nat.
Proof.
  induction l as [|x l IH]; [reflexivity|].
  cbn. destruct (g x); cbn; lia.
Qed.

End ListFacts.

Section Bound.
Context `{Variant}.
Variable squares : Squares.
Variables rows cols : nat.
Variable s0 : BeamState.

Hypothesis board_size : boardOfSize rows cols squares.
Hypothesis well_formed : wellFormed squares.
Hypothesis start_on_sphinx :
  exists sq p, squareAt squares (fst s0) = Some sq
               /\ piece sq = Some p /\ pieceType p = Sphinx.

Lemma squareAt_on_board (l : Location) (sq : Square) :
  squareAt squares l = Some sq ->
  0 <= rowIndex l < Z.of_nat rows /\ 0 <= colIndex l < Z.of_nat cols.
Proof.
  intros Hsq. apply squareAt_Some in Hsq as (Hr & Hc & row & Hrow & Hcol).
  destruct board_size as [Hrows Hcols].
  pose proof (lookup_lt_Some _ _ _ Hrow) as Hlt.
  pose proof (lookup_lt_Some _ _ _ Hcol) as Hlt'.
  rewrite (Forall_lookup_1 _ _ _ _ Hcols Hrow) in Hlt'. lia.
Qed.

Lemma orbit_on_board (n : nat) (s : BeamState) :
  orbit squares n s0 = Some s -> is_Some (squareAt squares (fst s)).
Proof.
  destruct n as [|n].
  - intros [= <-]. destruct start_on_sphinx as (sq & _ & Hsq & _). eauto.
  - intros Hs. apply orbit_step in Hs as (a & _ & Ha).
    apply next_Some in Ha as (_ & sq & Hsq & _). eauto.
Qed.

Lemma reflections_spec (n i : nat) :
  i ∈ reflections squares s0 n <->
  (1 <= i <= n)%nat
  /\ exists s, orbit squares i s0 = Some s /\ onMirror squares s = true.
Proof.
  unfold reflections. rewrite elem_of_List_filter, list_elem_of_In, List.in_seq.
  destruct (orbit squares i s0) as [s|]; split.
  - intros [Hi Hm]. split; [lia | eauto].
  - intros [Hi (s' & [= <-] & Hm)]. split; [lia | exact Hm].
  - intros [_ [=]].
  - intros [_ (s' & [=] & _)].
Qed.

Lemma reflections_S (n : nat) :
  reflections squares s0 (S n)
  = reflections squares s0 n
    ++ match orbit squares (S n) s0 with
       | Some s => if onMirror squares s then [S n] else []
       | None => []
       end.
Proof.
  unfold reflections. rewrite List.seq_S, List.filter_app. f_equal.
  cbn [List.filter Nat.add].
  destruct (orbit squares (S n) s0) as [s|]; [|reflexivity].
  destruct (onMirror squares s); reflexivity.
Qed.

Lemma onMirror_mirrorAt (s : BeamState) :
  onMirror squares s = true ->
  exists sq m, squareAt squares (fst s) = Some sq /\ mirrorAt sq = Some m
               /\ isReflective sq = true.
Proof.
  unfold onMirror.
  destruct (squareAt squares (fst s)) as [sq|]; [|discriminate].
  intros Hr. exists sq. pose proof Hr as Hr'.
  unfold mirrorAt. unfold isReflective in Hr'.
  destruct (piece sq) as [p|]; [|discriminate].
  destruct (pieceType p); try discriminate; eauto.
Qed.

(** Two reflections at the same place and on the same side of the mirror
    are the same step of the beam. *)
Lemma reflections_apart (n i j : nat) :
  i ∈ reflections squares s0 n -> j ∈ reflections squares s0 n ->
  placeAt squares s0 i = placeAt squares s0 j ->
  sideAt squares s0 i = sideAt squares s0 j -> i = j.
Proof.
  intros Hi Hj. apply reflections_spec in Hi as (Hi & si & Hsi & Hmi).
  apply reflections_spec in Hj as (_ & sj & Hsj & Hmj).
  unfold placeAt, sideAt. rewrite Hsi, Hsj. intros Hplace.
  destruct (onMirror_mirrorAt _ Hmi) as (sq & m & Hsq & Hm & Hr).
  rewrite <- Hplace, Hsq. cbn. rewrite Hm. intros Hside.
  destruct (side_eq _ _ _ Hside) as [Hd|Hd].
  - apply (orbit_inj squares s0 start_on_sphinx i j si); [exact Hsi|].
    rewrite Hsj. f_equal. destruct si, sj; cbn in *; congruence.
  - exfalso. destruct i as [|i]; [lia|].
    apply orbit_step in Hsi as (a & Ha & Hna).
    apply (orbit_no_backwards squares s0 i j a Ha).
    rewrite Hsj. f_equal.
    apply next_Some in Hna as (Hl & sq' & Hsq' & Hcase).
    rewrite Hsq in Hsq'. injection Hsq' as <-.
    destruct Hcase as [(_ & Hr' & _)|(m' & Hm' & _ & Hd')]; [congruence|].
    rewrite Hm in Hm'. injection Hm' as <-.
    destruct sj as [lj dj], si as [li di], a as [la da].
    unfold backwards. cbn [fst snd] in *. subst.
    rewrite reflect_involutive. reflexivity.
Qed.

Lemma mirrors_length : length (mirrors squares) = reflectivePieces squares.
Proof. unfold mirrors, reflectivePieces. apply length_fmap. Qed.

Lemma reflections_side_bound (n : nat) (b : bool) :
  (length (List.filter (fun i => Bool.eqb (sideAt squares s0 i) b) (reflections squares s0 n))
   <= reflectivePieces squares)%nat.
Proof.
  rewrite <- mirrors_length.
  set (l := List.filter _ _).
  rewrite <- (length_fmap (placeAt squares s0) l).
  apply submseteq_length, NoDup_submseteq.
  - apply NoDup_fmap_2_strong.
    + intros i j Hi Hj Hp. subst l.
      apply elem_of_List_filter in Hi as [Hi Hbi], Hj as [Hj Hbj].
      apply Bool.eqb_prop in Hbi, Hbj.
      apply (reflections_apart n i j Hi Hj Hp). congruence.
    + subst l. apply NoDup_List_filter. unfold reflections.
      apply NoDup_List_filter, NoDup_seq.
  - intros x Hx. apply list_elem_of_fmap in Hx as (i & -> & Hi). subst l.
    apply elem_of_List_filter in Hi as [Hi _].
    apply reflections_spec in Hi as (_ & s & Hs & Hm).
    destruct (onMirror_mirrorAt _ Hm) as (sq & m & Hsq & _ & Hr).
    unfold placeAt, mirrors. rewrite Hs.
    apply list_elem_of_fmap. exists sq. split.
    + symmetry. eapply squareAt_location; eassumption.
    + apply elem_of_List_filter. split; [|exact Hr].
      eapply squareAt_in_concat. exact Hsq.
Qed.

(** A beam is reflected at most twice by each reflective piece. *)
Lemma reflections_bound (n : nat) :
  (length (reflections squares s0 n) <= 2 * reflectivePieces squares)%nat.
Proof.
  rewrite (length_List_filter_split (fun i => Bool.eqb (sideAt squares s0 i) true)).
  pose proof (reflections_side_bound n true) as Ht.
  pose proof (reflections_side_bound n false) as Hf.
  assert (Hext : List.filter (fun i => negb (Bool.eqb (sideAt squares s0 i) true))
                   (reflections squares s0 n)
                 = List.filter (fun i => Bool.eqb (sideAt squares s0 i) false)
                     (reflections squares s0 n)).
  { apply List.filter_ext. intros i. destruct (sideAt squares s0 i); reflexivity. }
  rewrite Hext. lia.
Qed.


Lemma ahead_bounds (s : BeamState) :
  is_Some (squareAt squares (fst s)) ->
  0 <= ahead (Z.of_nat rows) (Z.of_nat cols) s
    <= span (Z.of_nat rows) (Z.of_nat cols) (horizontal (snd s)).
Proof.
  intros [sq Hsq]. apply squareAt_on_board in Hsq.
  destruct s as [l d]. unfold ahead, span. cbn [fst snd] in *.
  destruct d; cbn [horizontal]; lia.
Qed.

Lemma ahead_advance (l : Location) (d : Orientation) :
  ahead (Z.of_nat rows) (Z.of_nat cols) (advance l d, d)
  = ahead (Z.of_nat rows) (Z.of_nat cols) (l, d) - 1.
Proof. unfold ahead. destruct l as [r c], d; cbn; lia. Qed.

Lemma runs_S (along_row : bool) (t : nat) :
  runs (Z.of_nat rows) (Z.of_nat cols) along_row (S t)
  = runs (Z.of_nat rows) (Z.of_nat cols) along_row t
    + span (Z.of_nat rows) (Z.of_nat cols)
        (if Nat.even (S t) then along_row else negb along_row).
Proof. reflexivity. Qed.

(** The steps made and the cells still ahead are paid for by the cells ahead
    at the start and one run per reflection; the runs alternate between rows
    and columns. *)
Lemma orbit_potential (n : nat) (s : BeamState) :
  orbit squares n s0 = Some s ->
  let t := length (reflections squares s0 n) in
  Z.of_nat n + ahead (Z.of_nat rows) (Z.of_nat cols) s
  <= ahead (Z.of_nat rows) (Z.of_nat cols) s0
     + runs (Z.of_nat rows) (Z.of_nat cols) (horizontal (snd s0)) t
  /\ horizontal (snd s)
     = if Nat.even t then horizontal (snd s0) else negb (horizontal (snd s0)).
Proof.
  revert s. induction n as [|n IH]; intros s Hs.
  - injection Hs as <-. cbn. split; [lia | reflexivity].
  - pose proof (orbit_on_board _ _ Hs) as Hon.
    pose proof (ahead_bounds _ Hon) as Hb.
    rewrite reflections_S, Hs.
    apply orbit_step in Hs as (a & Ha & Hna).
    destruct (IH a Ha) as [IHlen IHdir].
    pose proof (ahead_bounds _ (orbit_on_board _ _ Ha)) as Hba.
    pose proof (next_Some _ _ _ Hna) as (Hl & _).
    cbv zeta in *.
    set (t := length (reflections squares s0 n)) in *.
    assert (Hstep : ahead (Z.of_nat rows) (Z.of_nat cols) (fst s, snd a)
                    = ahead (Z.of_nat rows) (Z.of_nat cols) a - 1).
    { rewrite Hl. destruct a as [la da]. apply ahead_advance. }
    destruct (next_turn _ _ _ Hna) as [[Hm Hd]|[Hm Hd]]; rewrite Hm.
    + rewrite app_nil_r. fold t.
      assert (Hs' : s = (fst s, snd a)) by (destruct s; cbn in *; congruence).
      rewrite Hs' at 1. rewrite Hstep, Hd. split; [lia | exact IHdir].
    + rewrite length_app. cbn [length]. rewrite Nat.add_1_r. fold t.
      rewrite runs_S.
      assert (Hdir : horizontal (snd s)
                     = if Nat.even (S t) then horizontal (snd s0)
                       else negb (horizontal (snd s0))).
      { rewrite Hd, IHdir, Nat.even_succ, <- Nat.negb_even.
        destruct (Nat.even t), (horizontal (snd s0)); reflexivity. }
      split; [|exact Hdir].
      rewrite <- Hdir.
      assert (1 <= ahead (Z.of_nat rows) (Z.of_nat cols) a).
      { assert (Hsq : is_Some (squareAt squares (fst (fst s, snd a)))) by exact Hon.
        pose proof (ahead_bounds _ Hsq). lia. }
      lia.
Qed.

Lemma runs_nonneg (along_row : bool) (t : nat) :
  (1 <= rows)%nat -> (1 <= cols)%nat ->
  runs (Z.of_nat rows) (Z.of_nat cols) along_row t
  <= runs (Z.of_nat rows) (Z.of_nat cols) along_row (S t).
Proof.
  intros Hr Hc. rewrite runs_S. unfold span.
  destruct (if Nat.even (S t) then along_row else negb along_row); lia.
Qed.

Lemma runs_mono (along_row : bool) (t t' : nat) :
  (1 <= rows)%nat -> (1 <= cols)%nat -> (t <= t')%nat ->
  runs (Z.of_nat rows) (Z.of_nat cols) along_row t
  <= runs (Z.of_nat rows) (Z.of_nat cols) along_row t'.
Proof.
  intros Hr Hc Ht. induction Ht as [|t' Ht IH]; [lia|].
  pose proof (runs_nonneg along_row t' Hr Hc). lia.
Qed.

Lemma runs_pairs (along_row : bool) (k : nat) :
  runs (Z.of_nat rows) (Z.of_nat cols) along_row (2 * k)
  = Z.of_nat k * (Z.of_nat rows + Z.of_nat cols - 2).
Proof.
  induction k as [|k IH]; [reflexivity|].
  replace (2 * S k)%nat with (S (S (2 * k))) by lia.
  rewrite !runs_S, IH.
  rewrite Nat.even_succ_succ, Nat.even_succ, <- Nat.negb_even.
  unfold span. destruct (Nat.even (2 * k)), along_row; cbn [negb]; lia.
Qed.

(** However far the beam gets, the number of its steps stays two below the
    bound. *)
Lemma orbit_bound (n : nat) :
  is_Some (orbit squares n s0) ->
  (n + 2 <= laserBound rows cols squares)%nat.
Proof.
  intros [s Hs].
  destruct (orbit_potential n s Hs) as [Hlen _]. cbv zeta in Hlen.
  pose proof (reflections_bound n) as Hturns.
  pose proof (ahead_bounds _ (orbit_on_board _ _ Hs)) as Hb.
  pose proof (ahead_bounds _ (orbit_on_board 0 s0 eq_refl)) as Hb0.
  assert (Hrows : (1 <= rows)%nat /\ (1 <= cols)%nat).
  { destruct start_on_sphinx as (sq & _ & Hsq & _).
    apply squareAt_on_board in Hsq. lia. }
  destruct Hrows as [Hr Hc].
  pose proof (runs_mono (horizontal (snd s0)) _ _ Hr Hc Hturns) as Hruns.
  rewrite runs_pairs in Hruns.
  unfold laserBound. unfold span in Hb0.
  assert (Z.of_nat n + 2
          <= (Z.of_nat rows + Z.of_nat cols) * (Z.of_nat (reflectivePieces squares) + 1));
    [|nia].
  destruct (horizontal (snd s0)); nia.
Qed.

End Bound.

Section Fire.
Context `{Variant}.
Variable squares : Squares.

Lemma beam_goes_on (fuel : nat) (s s' : BeamState) :
  next squares s = Some s' ->
  beam (S fuel) squares (fst s) (snd s)
  = lit (fst s') <$> beam fuel squares (fst s') (snd s').
Proof.
  unfold next. cbn [beam].
  destruct (squareAt squares (advance (fst s) (snd s))) as [sq|]; [|discriminate].
  destruct (piece sq) as [p|].
  - destruct (strike p (snd s)); try discriminate. intros [= <-]. reflexivity.
  - intros [= <-]. reflexivity.
Qed.

Lemma beam_ends (s : BeamState) :
  next squares s = None ->
  exists r, (forall fuel, beam (S fuel) squares (fst s) (snd s) = Some r)
            /\ (length (path r) <= 1)%nat.
Proof.
  unfold next. cbn [beam].
  destruct (squareAt squares (advance (fst s) (snd s))) as [sq|].
  - destruct (piece sq) as [p|]; [|discriminate].
    destruct (strike p (snd s)); try discriminate; intros _;
      eexists; (split; [intros fuel; reflexivity | cbn; lia]).
  - intros _. eexists. split; [intros fuel; reflexivity | cbn; lia].
Qed.

(** A beam whose states are fewer than the fuel ends, with the same result
    whatever more fuel it is given, after lighting at most [fuel] cells. *)
Lemma beam_runs (fuel : nat) (s : BeamState) :
  (forall n, is_Some (orbit squares n s) -> (n < fuel)%nat) ->
  exists r,
    (forall fuel', (fuel <= fuel')%nat ->
                   beam fuel' squares (fst s) (snd s) = Some r)
    /\ (length (path r) <= fuel)%nat.
Proof.
  revert s. induction fuel as [|fuel IH]; intros s Hfew.
  - specialize (Hfew 0%nat). cbn in Hfew. assert (0 < 0)%nat by eauto. lia.
  - destruct (next squares s) as [s'|] eqn:Hnext.
    + destruct (IH s') as (r & Hr & Hlen).
      { intros n Hn. apply Nat.succ_lt_mono. apply Hfew.
        rewrite orbit_front, Hnext. exact Hn. }
      exists (lit (fst s') r). split.
      * intros [|fuel'] Hle; [lia|].
        rewrite (beam_goes_on _ _ _ Hnext), Hr by lia. reflexivity.
      * cbn. lia.
    + destruct (beam_ends s Hnext) as (r & Hr & Hlen).
      exists r. split; [|lia].
      intros [|fuel'] Hle; [lia | apply Hr].
Qed.

Lemma in_concat_squareAt (sq : Square) :
  wellFormed squares -> sq ∈ concat squares ->
  squareAt squares (location sq) = Some sq.
Proof.
  intros Hwf Hin. apply list_elem_of_In, in_concat in Hin as (row & Hrow & Hsq).
  apply list_elem_of_In, list_elem_of_lookup_1 in Hrow as [r Hr].
  apply list_elem_of_In, list_elem_of_lookup_1 in Hsq as [c Hc].
  rewrite (Hwf r c row sq Hr Hc). apply squareAt_Some. cbn.
  rewrite !Nat2Z.id. split; [lia|]. split; [lia|]. eauto.
Qed.

End Fire.

(** C3.  On a well-formed board of [rows] by [cols] squares, [fire] ends for
    either player: there is one result that [fire] returns for every amount of
    fuel from the bound on, and its path has at most
    [(rows + cols) * (reflective pieces + 1)] cells.  The beam cannot be
    caught in a cycle of mirrors. *)
Theorem fire_terminates_within_bound `{Variant} (rows cols : nat)
    (squares : Squares) (activePlayer : PlayerTypesEnum) :
  boardOfSize rows cols squares ->
  wellFormed squares ->
  exists result,
    (forall fuel, ((rows + cols) * (reflectivePieces squares + 1) <= fuel)%nat ->
                  fire fuel squares activePlayer = Some result)
    /\ (length (path result) <= (rows + cols) * (reflectivePieces squares + 1))%nat.
Proof.
  intros Hsize Hwf. fold (laserBound rows cols squares). unfold fire.
  destruct (findSphinx squares activePlayer) as [sq|] eqn:Hfind.
  - unfold findSphinx in Hfind. apply List.find_some in Hfind as [Hin Hsphinx].
    unfold isSphinxOf in Hsphinx.
    destruct (piece sq) as [p|] eqn:Hp; [|discriminate].
    apply andb_prop in Hsphinx as [Ht _]. apply bool_decide_eq_true in Ht.
    apply list_elem_of_In in Hin.
    pose proof (in_concat_squareAt squares sq Hwf Hin) as Hsq.
    set (s0 := (location sq, orientation p) : BeamState).
    assert (Hstart : exists sq' p', squareAt squares (fst s0) = Some sq'
                                    /\ piece sq' = Some p' /\ pieceType p' = Sphinx)
      by (exists sq, p; auto).
    pose proof (orbit_bound squares rows cols s0 Hsize Hwf Hstart) as Hbound.
    pose proof (Hbound 0%nat (ex_intro _ s0 eq_refl)) as Hpos.
    destruct (beam_runs squares (laserBound rows cols squares - 1) s0)
      as (r & Hr & Hlen).
    { intros n Hn. specialize (Hbound n Hn). lia. }
    exists (lit (location sq) r). split.
    + intros fuel Hfuel. cbn [fst snd] in Hr. rewrite Hr by lia. reflexivity.
    + cbn. lia.
  - exists (mkLaserResult [] None). split; [reflexivity | cbn; lia].
Qed.

(** * The properties on concrete boards *)

Section Examples.

#[local] Existing Instance classicKhet.
#[local] Existing Instance exampleModels.

Lemma layout_wellFormed (pieces : list (list (option Piece))) :
  wellFormed (layout pieces).
Proof.
  unfold wellFormed, layout. intros r c row sq Hrow Hsq.
  rewrite list_lookup_imap in Hrow.
  destruct (pieces !! r) as [prow|]; [|discriminate].
  injection Hrow as <-. rewrite list_lookup_imap in Hsq.
  destruct (prow !! c) as [p|]; [|discriminate].
  injection Hsq as <-. reflexivity.
Qed.

(** The ring of Scarabs is a cycle: a beam between two of them is back where
    it was after eight steps, and the stepping loop started there runs out of
    any fuel it is tried with. *)
Example mirrorRing_cycles :
  orbit mirrorRing 8 (mkLocation 1 2, East) = Some (mkLocation 1 2, East)
  /\ beam 1000 mirrorRing (mkLocation 1 2) East = None.
Proof. split; vm_compute; reflexivity. Qed.

(** Fired from the Sphinx, the beam meets the ring and leaves the board. *)
Example mirrorRing_fire :
  fire (laserBound 5 5 mirrorRing) mirrorRing RED
  = Some (mkLaserResult
            [mkLocation 1 0; mkLocation 1 1; mkLocation 0 1] None).
Proof. vm_compute. reflexivity. Qed.

Lemma fire_terminates_on_mirrorRing :
  boardOfSize 5 5 mirrorRing
  /\ wellFormed mirrorRing
  /\ exists result,
       (forall fuel, ((5 + 5) * (reflectivePieces mirrorRing + 1) <= fuel)%nat ->
                     fire fuel mirrorRing RED = Some result)
       /\ (length (path result) <= (5 + 5) * (reflectivePieces mirrorRing + 1))%nat.
Proof.
  assert (Hsize : boardOfSize 5 5 mirrorRing)
    by (split; [reflexivity | repeat constructor]).
  assert (Hwf : wellFormed mirrorRing) by apply layout_wellFormed.
  split; [exact Hsize|]. split; [exact Hwf|].
  exact (fire_terminates_within_bound 5 5 mirrorRing RED Hsize Hwf).
Defined.

Lemma ringSwap_offered : ringSwap ∈ movesFor mirrorRing (mkLocation 1 1).
Proof. vm_compute. constructor. Defined.

Lemma special_movement_swaps_on_mirrorRing :
  ringSwap ∈ movesFor mirrorRing (srcLocation ringSwap)
  /\ movementType ringSwap = SPECIAL
  /\ exists scarab occupant squares',
       pieceAt mirrorRing (srcLocation ringSwap) = Some scarab
       /\ pieceType scarab = Scarab
       /\ pieceAt mirrorRing (destLocation ringSwap) = Some occupant
       /\ swapEligible occupant = true
       /\ applyMovement mirrorRing ringSwap = inr squares'
       /\ pieceAt squares' (srcLocation ringSwap) = Some occupant
       /\ pieceAt squares' (destLocation ringSwap) = Some scarab
       /\ forall l, l <> srcLocation ringSwap -> l <> destLocation ringSwap ->
                    squareAt squares' l = squareAt mirrorRing l.
Proof.
  split; [exact ringSwap_offered|]. split; [reflexivity|].
  exact (special_movement_swaps mirrorRing ringSwap ringSwap_offered eq_refl).
Defined.

Lemma movement_round_trip_ringSwap :
  boardOfSize 5 5 mirrorRing
  /\ wellFormed mirrorRing
  /\ ringSwap ∈ movesFor mirrorRing (srcLocation ringSwap)
  /\ deserialize 5 5 (serialize ringSwap) = inr ringSwap
  /\ exists effects,
       onMove (drawBoardPieces mirrorRing RED false 700) ringSwap (70, 70)%Q
       = inr effects
       /\ submitted effects = [serialize ringSwap].
Proof.
  assert (Hsize : boardOfSize 5 5 mirrorRing)
    by (split; [reflexivity | repeat constructor]).
  split; [exact Hsize|]. split; [apply layout_wellFormed|].
  split; [exact ringSwap_offered|].
  pose proof (movement_round_trip 5 5 mirrorRing ringSwap RED false 700 (70, 70)%Q
                Hsize (layout_wellFormed _) ringSwap_offered) as Hthm.
  cbv zeta in Hthm. destruct Hthm as (Hround & (effects & Hrun & Hsub & _) & _).
  split; [exact Hround|]. exists effects. split; [exact Hrun | exact Hsub].
Defined.

Lemma special_move_destination_is_drawn_on_mirrorRing :
  let layer := drawBoardPieces mirrorRing RED false 700 in
  wellFormed mirrorRing
  /\ ringSwap ∈ getMovesForPieceAtLocation mirrorRing (mkLocation 1 1)
  /\ movementType ringSwap = SPECIAL
  /\ exists destPieceRaw effects,
       find layer "c3" !! 0%nat = Some destPieceRaw
       /\ bpId destPieceRaw = "c3"%string
       /\ onMove layer ringSwap (70, 70)%Q = inr effects
       /\ Tween destPieceRaw 70 70 0.332%Q ∈ effects.
Proof.
  intros layer.
  split; [apply layout_wellFormed|]. split; [exact ringSwap_offered|].
  split; [reflexivity|].
  exact (proj2 (special_move_destination_is_drawn mirrorRing RED false 700
                  (mkLocation 1 1) ringSwap (70, 70)%Q
                  (layout_wellFormed _)
                  (movesFor_special_occupied mirrorRing (mkLocation 1 1))
                  ringSwap_offered eq_refl)).
Defined.

Lemma afterStrike_reachable : reachable afterStrike.
Proof.
  apply (reachable_turn (newMatch openFile RED) anubisStep afterStrike).
  - apply reachable_start.
  - reflexivity.
  - vm_compute. reflexivity.
Defined.

Lemma winner_set_iff_finished_after_strike :
  reachable afterStrike
  /\ strikesPharaoh (newMatch openFile RED) anubisStep = true
  /\ status (matchState afterStrike) = Finished
  /\ winner (matchState afterStrike) = Some RED
  /\ (is_Some (winner (matchState afterStrike))
      <-> status (matchState afterStrike) = Finished)
  /\ (is_Some (renderWinner (winner (matchState afterStrike)))
      <-> is_Some (winner (matchState afterStrike)))
  /\ renderWinner (winner (matchState afterStrike))
     = Some (H1 ["🎉 "; "RED"; " player wins!"]).
Proof.
  split; [exact afterStrike_reachable|].
  split; [vm_compute; reflexivity|].
  split; [vm_compute; reflexivity|].
  assert (Hw : winner (matchState afterStrike) = Some RED) by (vm_compute; reflexivity).
  split; [exact Hw|].
  pose proof (winner_set_iff_finished afterStrike afterStrike_reachable) as Hthm.
  cbv zeta in Hthm. destruct Hthm as (Hset & Hrender & _ & Hnames & _).
  split; [exact Hset|]. split; [exact Hrender|].
  exact (Hnames RED Hw).
Defined.

End Examples.


(** * Further properties of [src/App.js] *)

Section SquareFacts.

(** Squares that record where they stand, the rows counted from [k]. *)
Lemma locations_NoDup_from (k : nat) (squares : Squares) :
  (forall (r c : nat) (row : list Square) (sq : Square),
      squares !! r = Some row -> row !! c = Some sq ->
      location sq = mkLocation (Z.of_nat (k + r)) (Z.of_nat c)) ->
  NoDup (location <$> concat squares).
Proof.
  revert k. induction squares as [|row rest IH]; intros k Hwf; [constructor|].
  cbn [concat]. rewrite fmap_app. apply NoDup_app. split; [|split].
  - apply NoDup_alt. intros i j l Hi Hj.
    rewrite list_lookup_fmap in Hi, Hj.
    destruct (row !! i) as [si|] eqn:Hsi; [|discriminate].
    destruct (row !! j) as [sj|] eqn:Hsj; [|discriminate].
    cbn in Hi, Hj.
    pose proof (Hwf 0%nat i row si eq_refl Hsi) as Ei.
    pose proof (Hwf 0%nat j row sj eq_refl Hsj) as Ej.
    assert (E : mkLocation (Z.of_nat (k + 0)) (Z.of_nat i)
                = mkLocation (Z.of_nat (k + 0)) (Z.of_nat j)) by congruence.
    injection E as E. lia.
  - intros l Hrow Hrest.
    apply list_elem_of_fmap in Hrow as (s & -> & Hs).
    apply list_elem_of_fmap in Hrest as (s' & Heq & Hs').
    apply list_elem_of_lookup_1 in Hs as (c & Hc).
    apply list_elem_of_In, in_concat in Hs' as (row' & Hrow' & Hin').
    apply list_elem_of_In, list_elem_of_lookup_1 in Hrow' as (r & Hr).
    apply list_elem_of_In, list_elem_of_lookup_1 in Hin' as (c' & Hc').
    pose proof (Hwf 0%nat c row s eq_refl Hc) as E.
    pose proof (Hwf (S r) c' row' s' Hr Hc') as E'.
    rewrite E, E' in Heq. injection Heq as Heq _. lia.
  - apply (IH (S k)). intros r c row' sq Hr Hc.
    rewrite (Hwf (S r) c row' sq Hr Hc). f_equal. lia.
Qed.

Lemma wellFormed_locations_NoDup (squares : Squares) :
  wellFormed squares -> NoDup (location <$> concat squares).
Proof. intros Hwf. apply (locations_NoDup_from 0). exact Hwf. Qed.

(** On well-formed squares the square of a location is the only one that
    records it. *)
Lemma wellFormed_square_unique (squares : Squares) (l : Location) (s s' : Square) :
  wellFormed squares ->
  squareAt squares l = Some s ->
  s' ∈ concat squares -> location s' = l -> s' = s.
Proof.
  intros Hwf Hs Hin Hloc.
  pose proof (squareAt_in_concat _ _ _ Hs) as Hin0.
  pose proof (squareAt_location _ _ _ Hwf Hs) as Hloc0.
  pose proof (wellFormed_locations_NoDup _ Hwf) as Hnd.
  apply list_elem_of_lookup_1 in Hin as (i & Hi).
  apply list_elem_of_lookup_1 in Hin0 as (j & Hj).
  assert (i = j) as ->.
  { apply (proj1 (NoDup_alt _) Hnd i j l).
    - rewrite list_lookup_fmap, Hi. cbn. congruence.
    - rewrite list_lookup_fmap, Hj. cbn. congruence. }
  congruence.
Qed.

(** A square of well-formed squares is the square at its location. *)
Lemma wellFormed_squareAt (squares : Squares) (s : Square) :
  wellFormed squares -> s ∈ concat squares ->
  squareAt squares (location s) = Some s.
Proof.
  intros Hwf Hin.
  apply list_elem_of_In, in_concat in Hin as (row & Hrow & Hin).
  apply list_elem_of_In, list_elem_of_lookup_1 in Hrow as (r & Hr).
  apply list_elem_of_In, list_elem_of_lookup_1 in Hin as (c & Hc).
  apply squareAt_Some. rewrite (Hwf _ _ _ _ Hr Hc). cbn.
  split; [lia|]. split; [lia|]. exists row. rewrite !Nat2Z.id. auto.
Qed.

(** Filtering a list for the one element that has a value nothing else in
    the list has. *)
Lemma filter_the_one {A B} `{EqDecision B} (f : A -> B) (l : list A) (x : A) :
  NoDup (f <$> l) -> x ∈ l ->
  List.filter (fun y => bool_decide (f y = f x)) l = [x].
Proof.
  induction l as [|y l IH]; intros Hnd Hin; [inversion Hin|].
  rewrite fmap_cons in Hnd. apply NoDup_cons in Hnd as [Hy Hnd].
  cbn [List.filter]. apply elem_of_cons in Hin as [->|Hin].
  - rewrite bool_decide_eq_true_2 by reflexivity. f_equal.
    clear IH Hnd. induction l as [|z l IHl]; [reflexivity|].
    cbn [List.filter]. rewrite fmap_cons in Hy.
    apply not_elem_of_cons in Hy as [Hne Hy].
    rewrite bool_decide_eq_false_2 by congruence. apply IHl. exact Hy.
  - rewrite bool_decide_eq_false_2.
    + apply IH; assumption.
    + intros E. apply Hy. rewrite E. apply list_elem_of_fmap. eauto.
Qed.

Lemma filter_none {A} (P : A -> bool) (l : list A) :
  (forall y, y ∈ l -> P y = false) -> List.filter P l = [].
Proof.
  induction l as [|y l IH]; intros Hall; [reflexivity|].
  cbn [List.filter]. rewrite (Hall y) by constructor.
  apply IH. intros z Hz. apply Hall. constructor. exact Hz.
Qed.

End SquareFacts.

Section MoreOfPieces.
Context `{Models}.
Local Open Scope Q_scope.

(** X1.  The handler throws exactly on a Special movement for whose destination
    no node is drawn; every other movement, and a Special one whose
    destination is drawn, runs to the end. *)
Theorem onMove_throws_iff (layer : list BoardPieceProps) (m : Movement)
    (srcPieceXY : Q * Q) :
  onMove layer m srcPieceXY = inl TypeError
  <-> movementType m = SPECIAL /\ find layer (toANString (destLocation m)) = [].
Proof.
  unfold onMove. case_bool_decide as Hs.
  - destruct (find layer (toANString (destLocation m))) as [|node rest] eqn:Hfind.
    + cbn. split; auto.
    + cbn. split; [discriminate | intros [_ [=]]].
  - cbn. split; [discriminate | intros [? _]; contradiction].
Qed.

(** The node [drawBoardPieces] makes of a square. *)
Lemma drawBoardPieces_nodes (squares : Squares) (turn : PlayerTypesEnum)
    (laserIsTriggered : bool) (stageWidth : Q) (P : Square -> bool) :
  List.filter (fun node => P (bpSquare node))
    (drawBoardPieces squares turn laserIsTriggered stageWidth)
  = map (fun square =>
           mkBoardPiece turn laserIsTriggered (toANString (location square))
             (match piece square with Some p => imageName p | None => "" end
              +:+ "--" +:+ toANString (location square))
             square (getCellSize stageWidth))
        (List.filter P (List.filter hasPiece (concat squares))).
Proof.
  unfold drawBoardPieces. cbv zeta.
  induction (List.filter hasPiece (concat squares)) as [|s l IH]; [reflexivity|].
  cbn [map List.filter bpSquare]. destruct (P s); cbn [map]; rewrite IH; reflexivity.
Qed.

(** The query for an id, in terms of the squares. *)
Lemma find_drawBoardPieces (squares : Squares) (turn : PlayerTypesEnum)
    (laserIsTriggered : bool) (stageWidth : Q) (id : string) :
  find (drawBoardPieces squares turn laserIsTriggered stageWidth) id
  = map (fun square =>
           mkBoardPiece turn laserIsTriggered (toANString (location square))
             (match piece square with Some p => imageName p | None => "" end
              +:+ "--" +:+ toANString (location square))
             square (getCellSize stageWidth))
        (List.filter (fun s => bool_decide (toANString (location s) = id))
           (List.filter hasPiece (concat squares))).
Proof.
  unfold find, drawBoardPieces. cbv zeta.
  induction (List.filter hasPiece (concat squares)) as [|s l IH]; [reflexivity|].
  cbn [map List.filter bpId].
  destruct (bool_decide (toANString (location s) = id)); cbn [map]; rewrite IH;
    reflexivity.
Qed.

Lemma filter_hasPiece_NoDup (squares : Squares) :
  wellFormed squares ->
  NoDup (location <$> List.filter hasPiece (concat squares)).
Proof.
  intros Hwf. pose proof (wellFormed_locations_NoDup _ Hwf) as Hnd.
  induction (concat squares) as [|s l IH]; [constructor|].
  rewrite fmap_cons in Hnd. apply NoDup_cons in Hnd as [Hs Hnd].
  cbn [List.filter]. destruct (hasPiece s); [|apply IH; exact Hnd].
  rewrite fmap_cons. apply NoDup_cons. split; [|apply IH; exact Hnd].
  intros Hin. apply Hs. apply list_elem_of_fmap in Hin as (s' & -> & Hin).
  apply list_elem_of_fmap. exists s'. split; [reflexivity|].
  apply list_elem_of_In, List.filter_In in Hin as [Hin _].
  apply list_elem_of_In. exact Hin.
Qed.

(** X3.  On well-formed squares a piece is drawn exactly once and an empty
    square never: of the nodes [drawBoardPieces] returns, the ones that stand
    for a location are one node when the board has a piece there, and it
    carries that piece, the id of the location, the cell size, the turn and
    the laser flag; and none when the location is empty or off the board. *)
Theorem drawBoardPieces_each_piece_once (squares : Squares) (turn : PlayerTypesEnum)
    (laserIsTriggered : bool) (stageWidth : Q) (l : Location) :
  wellFormed squares ->
  let drawnAt :=
    List.filter (fun node => bool_decide (location (bpSquare node) = l))
      (drawBoardPieces squares turn laserIsTriggered stageWidth) in
  match pieceAt squares l with
  | Some p =>
      exists node,
        drawnAt = [node]
        /\ squareAt squares l = Some (bpSquare node)
        /\ piece (bpSquare node) = Some p
        /\ bpId node = toANString l
        /\ bpKey node = imageName p +:+ "--" +:+ toANString l
        /\ bpGridSize node = getCellSize stageWidth
        /\ bpTurn node = turn
        /\ bpLaserIsTriggered node = laserIsTriggered
  | None => drawnAt = []
  end.
Proof.
  intros Hwf drawnAt. subst drawnAt.
  pose proof (drawBoardPieces_nodes squares turn laserIsTriggered stageWidth
                (fun s => bool_decide (location s = l))) as Hnodes.
  cbv beta in Hnodes. rewrite Hnodes. clear Hnodes.
  destruct (pieceAt squares l) as [p|] eqn:Hp.
  - destruct (pieceAt_Some_square _ _ _ Hp) as (s & Hs & Hpiece).
    pose proof (squareAt_location _ _ _ Hwf Hs) as Hloc.
    assert (Hin : s ∈ List.filter hasPiece (concat squares)).
    { apply list_elem_of_In, List.filter_In. split.
      - apply list_elem_of_In. eapply squareAt_in_concat. exact Hs.
      - unfold hasPiece. rewrite Hpiece. reflexivity. }
    rewrite <- Hloc.
    rewrite (filter_the_one location _ s (filter_hasPiece_NoDup _ Hwf) Hin).
    eexists. split; [reflexivity|]. cbn. rewrite Hpiece, Hloc. auto 10.
  - rewrite filter_none; [reflexivity|].
    intros s Hin. apply bool_decide_eq_false_2. intros Hloc.
    apply list_elem_of_In, List.filter_In in Hin as [Hin Hhas].
    apply list_elem_of_In in Hin.
    pose proof (wellFormed_squareAt _ _ Hwf Hin) as Hs. rewrite Hloc in Hs.
    unfold pieceAt in Hp. rewrite Hs in Hp. cbn in Hp.
    unfold hasPiece in Hhas. rewrite Hp in Hhas. discriminate.
Qed.

(** The ids of the drawn pieces, when [toANString] tells the locations of the
    board apart. *)
Lemma drawBoardPieces_ids (squares : Squares) (turn : PlayerTypesEnum)
    (laserIsTriggered : bool) (stageWidth : Q) :
  bpId <$> drawBoardPieces squares turn laserIsTriggered stageWidth
  = (fun s => toANString (location s)) <$> List.filter hasPiece (concat squares).
Proof.
  unfold drawBoardPieces. cbv zeta. change (map ?f ?l) with (f <$> l).
  rewrite <- list_fmap_compose. reflexivity.
Qed.

Lemma ids_NoDup (squares : Squares) :
  wellFormed squares ->
  (forall s s', s ∈ concat squares -> s' ∈ concat squares ->
                toANString (location s) = toANString (location s') ->
                location s = location s') ->
  NoDup ((fun s => toANString (location s)) <$> List.filter hasPiece (concat squares)).
Proof.
  intros Hwf Hinj.
  change ((fun s => toANString (location s)) <$> ?l)
    with ((toANString ∘ location) <$> l).
  rewrite (list_fmap_compose location toANString).
  apply NoDup_fmap_2_strong; [|apply filter_hasPiece_NoDup; exact Hwf].
  intros l l' Hl Hl' E.
  apply list_elem_of_fmap in Hl as (s & -> & Hs).
  apply list_elem_of_fmap in Hl' as (s' & -> & Hs').
  apply list_elem_of_In, List.filter_In in Hs as [Hs _].
  apply list_elem_of_In, List.filter_In in Hs' as [Hs' _].
  apply Hinj; [apply list_elem_of_In; exact Hs | apply list_elem_of_In; exact Hs' | exact E].
Qed.

(** X4.  When the squares are well formed and [toANString] gives different
    locations of the board different strings, no two drawn pieces share an
    id, so a query for an id finds at most one node; and the query for the id
    of a node that is drawn finds that node alone. *)
Theorem drawBoardPieces_ids_distinct (squares : Squares) (turn : PlayerTypesEnum)
    (laserIsTriggered : bool) (stageWidth : Q) :
  wellFormed squares ->
  (forall s s', s ∈ concat squares -> s' ∈ concat squares ->
                toANString (location s) = toANString (location s') ->
                location s = location s') ->
  let layer := drawBoardPieces squares turn laserIsTriggered stageWidth in
  NoDup (bpId <$> layer)
  /\ (forall id, (length (find layer id) <= 1)%nat)
  /\ (forall node, node ∈ layer -> find layer (bpId node) = [node]).
Proof.
  intros Hwf Hinj layer.
  assert (Hnd : NoDup (bpId <$> layer)).
  { subst layer. rewrite drawBoardPieces_ids. apply ids_NoDup; assumption. }
  assert (Hone : forall node, node ∈ layer -> find layer (bpId node) = [node]).
  { intros node Hin. unfold find. apply (filter_the_one bpId); assumption. }
  split; [exact Hnd|]. split; [|exact Hone].
  intros id. destruct (find layer id) as [|node rest] eqn:Hfind; [cbn; lia|].
  assert (Hin : In node (find layer id)) by (rewrite Hfind; left; reflexivity).
  unfold find in Hin. apply List.filter_In in Hin as [Hin Hid].
  apply bool_decide_eq_true in Hid. apply list_elem_of_In in Hin.
  rewrite <- Hid, (Hone node Hin) in Hfind. injection Hfind as <-. cbn. lia.
Qed.

(** X2.  A Special movement onto a square of the board, on well-formed
    squares whose locations [toANString] tells apart: when the square holds a
    piece, the handler sends the node of that very piece to where the dragged
    piece came from, in a tween of 0.332 s, and hands the movement to the
    store when the 332 ms of the tween are over; when the square is empty, it
    throws and nothing reaches the store. *)
Theorem onMove_special_outcome (squares : Squares) (turn : PlayerTypesEnum)
    (laserIsTriggered : bool) (stageWidth : Q) (m : Movement)
    (srcPieceXY : Q * Q) (sd : Square) :
  wellFormed squares ->
  (forall s s', s ∈ concat squares -> s' ∈ concat squares ->
                toANString (location s) = toANString (location s') ->
                location s = location s') ->
  movementType m = SPECIAL ->
  squareAt squares (destLocation m) = Some sd ->
  let layer := drawBoardPieces squares turn laserIsTriggered stageWidth in
  match piece sd with
  | Some p =>
      exists node duration timer,
        onMove layer m srcPieceXY
        = inr [Tween node (fst srcPieceXY) (snd srcPieceXY) duration;
               SetTimeout timer]
        /\ node ∈ layer
        /\ bpSquare node = sd
        /\ callback timer = [playerMove (serialize m)]
        /\ duration * 1000 == inject_Z (ms timer)
  | None => onMove layer m srcPieceXY = inl TypeError
  end.
Proof.
  intros Hwf Hinj Hs Hsd layer.
  pose proof (squareAt_location _ _ _ Hwf Hsd) as Hloc.
  pose proof (squareAt_in_concat _ _ _ Hsd) as Hin.
  pose proof (find_drawBoardPieces squares turn laserIsTriggered stageWidth
                (toANString (destLocation m))) as Hfind.
  fold layer in Hfind. rewrite <- Hloc in Hfind.
  unfold onMove. rewrite bool_decide_eq_true_2 by assumption.
  cbv zeta. rewrite <- Hloc, Hfind, Hs.
  destruct (piece sd) as [p|] eqn:Hp.
  - assert (Hdrawn : sd ∈ List.filter hasPiece (concat squares)).
    { apply list_elem_of_In, List.filter_In. split.
      - apply list_elem_of_In. exact Hin.
      - unfold hasPiece. rewrite Hp. reflexivity. }
    rewrite (filter_the_one (fun s => toANString (location s)) _ sd
               (ids_NoDup _ Hwf Hinj) Hdrawn).
    cbn. eexists _, _, _. split; [reflexivity|].
    split; [|split; [reflexivity|split; reflexivity]].
    subst layer. unfold drawBoardPieces. apply list_elem_of_In, in_map_iff.
    exists sd. split; [reflexivity | apply list_elem_of_In; exact Hdrawn].
  - rewrite filter_none; [reflexivity|].
    intros s Hs'. apply bool_decide_eq_false_2. intros E.
    apply list_elem_of_In, List.filter_In in Hs' as [Hs' Hhas].
    apply list_elem_of_In in Hs'.
    assert (s = sd) as ->.
    { apply (wellFormed_square_unique squares (destLocation m)); auto.
      rewrite <- Hloc. apply Hinj; assumption. }
    unfold hasPiece in Hhas. rewrite Hp in Hhas. discriminate.
Qed.

End MoreOfPieces.

Section MoreOfDrawing.
Context `{Models}.
Local Open Scope Q_scope.

Lemma getCellSize_pos (w : Q) : 0 < w -> 0 < getCellSize w.
Proof. intros Hw. pose proof (getCellSize_tenth w). nra. Qed.

(** The coordinates of the [i]-th pair of a path of pairs. *)
Lemma concat_pairs (path : list (list Z)) (i : nat) (x y : Z) :
  Forall (fun pair => length pair = 2%nat) path ->
  path !! i = Some [x; y] ->
  concat path !! (2 * i)%nat = Some x
  /\ concat path !! (2 * i + 1)%nat = Some y.
Proof.
  intros Hpairs. revert i. induction Hpairs as [|pair path Hlen _ IH]; intros i Hi.
  - discriminate.
  - destruct i as [|i].
    + cbn in Hi. injection Hi as ->. cbn. auto.
    + cbn in Hi. destruct pair as [|a [|b [|c rest]]]; try discriminate.
      replace (2 * S i)%nat with (S (S (2 * i))) by lia.
      replace (S (S (2 * i)) + 1)%nat with (S (S (2 * i + 1))) by lia.
      cbn. apply IH. exact Hi.
Qed.

(** X5.  When the path is made of pairs of a column and a row of the board
    of 10 columns and 8 rows, in this order, the laser line runs through the
    middle of every cell of the path and stays on the stage: the [i]-th pair
    gives the two coordinates of the [i]-th point of the line, half a cell
    past the left and the top edge of its cell, strictly inside the stage. *)
Theorem drawLaser_inside_stage (laserBeamPath : list (list Z)) (stageWidth : Q) :
  0 < stageWidth ->
  Forall (fun pair => exists x y,
              pair = [x; y] /\ (0 <= x < 10)%Z /\ (0 <= y < 8)%Z)
         laserBeamPath ->
  exists props,
    drawLaser laserBeamPath stageWidth = Some (Line props)
    /\ length (points props) = (2 * length laserBeamPath)%nat
    /\ forall (i : nat) (x y : Z),
         laserBeamPath !! i = Some [x; y] ->
         exists px py,
           points props !! (2 * i)%nat = Some px
           /\ points props !! (2 * i + 1)%nat = Some py
           /\ px == inject_Z x * getCellSize stageWidth + getCellSize stageWidth / 2
           /\ py == inject_Z y * getCellSize stageWidth + getCellSize stageWidth / 2
           /\ 0 < px /\ px < stageWidthProp stageWidth
           /\ 0 < py /\ py < stageHeightProp stageWidth.
Proof.
  intros Hw Hpath.
  assert (Hpairs : Forall (fun pair : list Z => length pair = 2%nat) laserBeamPath).
  { eapply Forall_impl; [exact Hpath|]. intros pair (x & y & -> & _). reflexivity. }
  unfold drawLaser. cbn [truthy]. eexists. split; [reflexivity|].
  cbn [points]. split.
  - rewrite length_map. clear Hpath.
    induction Hpairs as [|pair path Hlen _ IH]; [reflexivity|].
    cbn [concat]. rewrite length_app, IH, Hlen. cbn [length]. lia.
  - intros i x y Hi.
    destruct (concat_pairs _ _ _ _ Hpairs Hi) as [Hx Hy].
    pose proof (proj1 (Forall_lookup _ _) Hpath i _ Hi) as (x' & y' & E & Hxb & Hyb).
    injection E as <- <-.
    change (map ?f ?l) with (f <$> l). rewrite !list_lookup_fmap, Hx, Hy. cbn.
    eexists _, _. split; [reflexivity|]. split; [reflexivity|].
    split; [reflexivity|]. split; [reflexivity|].
    pose proof (getCellSize_pos _ Hw) as Hc.
    pose proof (getCellSize_tenth stageWidth) as Hten.
    unfold stageWidthProp, stageHeightProp, getBoardSize.
    set (c := getCellSize stageWidth) in *.
    assert (Hx0 : (0 <= x)%Z) by lia. assert (Hx9 : (x <= 9)%Z) by lia.
    assert (Hy0 : (0 <= y)%Z) by lia. assert (Hy7 : (y <= 7)%Z) by lia.
    rewrite Zle_Qle in Hx0, Hx9, Hy0, Hy7.
    change (inject_Z 0) with 0 in Hx0, Hy0.
    change (inject_Z 9) with 9 in Hx9. change (inject_Z 7) with 7 in Hy7.
    assert (Hhalf : c / 2 == c * (1 # 2)) by field.
    assert (0 <= inject_Z x * c) by nra. assert (inject_Z x * c <= 9 * c) by nra.
    assert (0 <= inject_Z y * c) by nra. assert (inject_Z y * c <= 7 * c) by nra.
    rewrite Hhalf. repeat split; lra.
Qed.

(** The markers of the moves. *)
Lemma drawHighlight_markers (selected : Location) (squares : Squares)
    (stageWidth : Q) :
  exists highlights,
    drawHighlight (Some selected) squares stageWidth = Some highlights
    /\ circlesOfAll highlights
       = map (fun move =>
                {| circleKey := "pm--" +:+ toANString (destLocation move);
                   circleFill := "#1EFC1E9F";
                   circleOffsetX := - getCellSize stageWidth / 2;
                   circleOffsetY := - getCellSize stageWidth / 2;
                   circleListening := false;
                   circleWidth := getCellSize stageWidth / 2.5;
                   circleHeight := getCellSize stageWidth / 2.5;
                   circleStroke := "#1EFC1E";
                   circleStrokeWidth := 4;
                   circlePerfectDrawEnabled := false;
                   circleX := inject_Z (colIndex (destLocation move))
                              * getCellSize stageWidth;
                   circleY := inject_Z (rowIndex (destLocation move))
                              * getCellSize stageWidth |})
             (getMovesForPieceAtLocation squares selected).
Proof.
  unfold drawHighlight. cbn [isEmpty negb]. eexists. split; [reflexivity|].
  rewrite circlesOfAll_frame, circlesOf_map_circle. reflexivity.
Qed.

(** X6.  With Konva's offset, width and stroke of a [Circle], the marker of
    a move is a disc around the middle of the cell of the move's
    destination, a fifth of a cell in radius, painted with a stroke that
    reaches 2 px further.  The bare disc lies strictly inside its cell
    exactly when the stage has a positive width, and the painted marker
    exactly when the stage is wider than 200/3 px, that is from 67 px on; on
    such a stage the painted marker of a destination within the 8 x 10
    bounds lies on the stage. *)
Theorem drawHighlight_marker_inside_cell (selected : Location) (squares : Squares)
    (stageWidth : Q) :
  exists highlights,
    drawHighlight (Some selected) squares stageWidth = Some highlights
    /\ forall (i : nat) (move : Movement),
         getMovesForPieceAtLocation squares selected !! i = Some move ->
         exists marker,
           circlesOfAll highlights !! i = Some marker
           /\ let cell := getCellSize stageWidth in
              let left := inject_Z (colIndex (destLocation move)) * cell in
              let top := inject_Z (rowIndex (destLocation move)) * cell in
              let cx := circleCentreX marker in
              let cy := circleCentreY marker in
              let r := circleRadius marker in
              let painted := circlePaintedRadius marker in
              cx == left + cell / 2
              /\ cy == top + cell / 2
              /\ r == cell / 5
              /\ painted == cell / 5 + 2
              /\ ((left < cx - r /\ cx + r < left + cell)
                  /\ (top < cy - r /\ cy + r < top + cell)
                  <-> 0 < stageWidth)
              /\ ((left < cx - painted /\ cx + painted < left + cell)
                  /\ (top < cy - painted /\ cy + painted < top + cell)
                  <-> 200 / 3 < stageWidth)
              /\ (200 / 3 < stageWidth ->
                  isInBounds 8 10 (destLocation move) = true ->
                  (0 < cx - painted /\ cx + painted < stageWidthProp stageWidth)
                  /\ (0 < cy - painted
                      /\ cy + painted < stageHeightProp stageWidth)).
Proof.
  destruct (drawHighlight_markers selected squares stageWidth)
    as (highlights & Hdraw & Hcircles).
  exists highlights. split; [exact Hdraw|]. intros i move Hi.
  rewrite Hcircles. change (map ?f ?l) with (f <$> l).
  rewrite list_lookup_fmap, Hi. cbn [fmap option_fmap option_map].
  eexists. split; [reflexivity|].
  unfold circlePaintedRadius, circleCentreX, circleCentreY, circleRadius.
  cbn [circleX circleY circleOffsetX circleOffsetY circleWidth circleStrokeWidth].
  cbv zeta.
  pose proof (getCellSize_tenth stageWidth) as Hten.
  set (c := getCellSize stageWidth) in *.
  set (left := inject_Z (colIndex (destLocation move)) * c).
  set (top := inject_Z (rowIndex (destLocation move)) * c).
  assert (Ex : left - - c / 2 == left + c / 2) by field.
  assert (Ey : top - - c / 2 == top + c / 2) by field.
  assert (Er : c / 2.5 / 2 == c / 5) by field.
  assert (Ep : c / 2.5 / 2 + 4 / 2 == c / 5 + 2) by field.
  rewrite Ex, Ey, Ep, Er.
  assert (Hfifth : c / 5 == c * (1 # 5)) by field.
  assert (Hhalf : c / 2 == c * (1 # 2)) by field.
  assert (Hlimit : 200 / 3 == 200 # 3) by reflexivity.
  rewrite Hfifth, Hhalf, Hlimit.
  split; [reflexivity|]. split; [reflexivity|]. split; [reflexivity|].
  split; [reflexivity|].
  split; [split; [intros [[? ?] _]; lra | intros ?; repeat split; lra]|].
  split; [split; [intros [[? ?] _]; lra | intros ?; repeat split; lra]|].
  intros Hwide Hb.
  assert (Hw : 0 < stageWidth) by lra.
  pose proof (cell_fits stageWidth (colIndex (destLocation move)) 10 Hw) as Hcol.
  pose proof (cell_fits stageWidth (rowIndex (destLocation move)) 8 Hw) as Hrow.
  fold c in Hcol, Hrow. fold left in Hcol. fold top in Hrow.
  apply bool_decide_eq_true in Hb. destruct Hb as [Hrb Hcb].
  apply Hcol in Hcb. apply Hrow in Hrb.
  change (inject_Z 10) with 10 in Hcb. change (inject_Z 8) with 8 in Hrb.
  destruct Hcb as [Hc0 Hc1], Hrb as [Hr0 Hr1].
  unfold stageWidthProp, stageHeightProp, getBoardSize. fold c.
  repeat split; lra.
Qed.

(** X7.  The markers are the children of one array, so React tells them
    apart by their keys, and the key of a marker is [pm--] followed by
    [toANString] of the destination of its move.  Keys that are pairwise
    distinct come from destinations that are; and when [toANString] gives
    the destinations of the moves different strings, moves with pairwise
    distinct destinations get pairwise distinct keys. *)
Theorem drawHighlight_marker_keys (selected : Location) (squares : Squares)
    (stageWidth : Q) :
  let moves := getMovesForPieceAtLocation squares selected in
  exists highlights,
    drawHighlight (Some selected) squares stageWidth = Some highlights
    /\ circleKey <$> circlesOfAll highlights
       = (fun m => "pm--" +:+ toANString (destLocation m)) <$> moves
    /\ (NoDup (circleKey <$> circlesOfAll highlights) ->
        NoDup (destLocation <$> moves))
    /\ ((forall m m', m ∈ moves -> m' ∈ moves ->
                      toANString (destLocation m) = toANString (destLocation m') ->
                      destLocation m = destLocation m') ->
        NoDup (destLocation <$> moves) ->
        NoDup (circleKey <$> circlesOfAll highlights)).
Proof.
  intros moves.
  destruct (drawHighlight_markers selected squares stageWidth)
    as (highlights & Hdraw & Hcircles).
  exists highlights. split; [exact Hdraw|].
  assert (Hkeys : circleKey <$> circlesOfAll highlights
                  = (fun l => "pm--" +:+ toANString l) <$> (destLocation <$> moves)).
  { rewrite Hcircles. change (map ?f ?l) with (f <$> l).
    rewrite <- !list_fmap_compose. reflexivity. }
  split; [|split].
  - rewrite Hkeys, <- list_fmap_compose. reflexivity.
  - rewrite Hkeys. apply NoDup_fmap_1.
  - intros Hinj. rewrite Hkeys.
    apply NoDup_fmap_2_strong. intros l l' Hl Hl' E.
    apply list_elem_of_fmap in Hl as (m & -> & Hm).
    apply list_elem_of_fmap in Hl' as (m' & -> & Hm').
    apply Hinj; [assumption..|].
    cbn in E. injection E as E. exact E.
Qed.

End MoreOfDrawing.

Section MoreOfPage.
Local Open Scope Q_scope.

(** X8.  Who is to move is shown in exactly one way.  One of the two rows is
    white, the row of the player to move.  Blue's badge "Your turn" is shown
    exactly on Blue's turn and Red's exactly on Red's turn with the AI mode
    off; and the effect on the turn schedules a move of the AI exactly when
    neither badge is shown. *)
Theorem your_turn_badge_or_ai_move (turn : PlayerTypesEnum) (aiEnabled : bool) :
  let red := redPlayerRow turn aiEnabled in
  let blue := bluePlayerRow turn in
  (rowClassName red = "col text-white"%string <-> turn = RED)
  /\ (rowClassName blue = "col text-white"%string <-> turn = BLUE)
  /\ (rowClassName red = "col text-white"%string
      <-> rowClassName blue = "col text-muted"%string)
  /\ (yourTurnHidden blue = false <-> turn = BLUE)
  /\ (yourTurnHidden red = false <-> turn = RED /\ aiEnabled = false)
  /\ (aiMove ∈ dispatched (aiEffect turn aiEnabled)
      <-> yourTurnHidden red = true /\ yourTurnHidden blue = true).
Proof.
  assert (Hno : ~ aiMove ∈ @nil Action) by (intros Hin; inversion Hin).
  cbv zeta.
  destruct turn, aiEnabled;
    [change (dispatched (aiEffect RED true)) with [aiMove]
    |change (dispatched (aiEffect _ _)) with (@nil Action) ..];
    cbn; repeat split; try discriminate; try reflexivity; try tauto;
    try (intros [? ?]; discriminate); try constructor.
Qed.

Lemma removeEventListener_absent (l : Listener) (registered : list Listener) :
  l ∉ registered -> removeEventListener l registered = registered.
Proof.
  intros Hnot. unfold removeEventListener.
  induction registered as [|l' rest IH]; [reflexivity|].
  apply not_elem_of_cons in Hnot as [Hne Hnot].
  cbn [List.filter]. rewrite bool_decide_eq_false_2 by congruence.
  cbn [negb]. f_equal. apply IH. exact Hnot.
Qed.

Lemma removeEventListener_added (l : Listener) (registered : list Listener) :
  removeEventListener l (addEventListener l registered)
  = removeEventListener l registered.
Proof.
  unfold addEventListener. case_bool_decide; [reflexivity|].
  unfold removeEventListener. rewrite List.filter_app. cbn [List.filter].
  rewrite bool_decide_eq_true_2 by reflexivity. cbn [negb]. apply app_nil_r.
Qed.

(** X9.  Mounting sets up the board once, takes the width of the container as
    the width of the stage and registers the handler of [resize]; the
    function the effect returns takes exactly this handler off again.  So
    when the handler was not registered before, the listeners of the window
    after mounting and unmounting are the ones before, however often the
    component is mounted and unmounted; the selection is not touched. *)
Theorem unmount_removes_resize_listener (handler : nat) (offsetWidth : Q) (p : Page) :
  (("resize"%string, handler) ∉ pageListeners p) ->
  let mounted := mountEffect handler offsetWidth p in
  let unmounted := mountCleanup handler mounted in
  pageListeners mounted = pageListeners p ++ [("resize"%string, handler)]
  /\ pageListeners unmounted = pageListeners p
  /\ pageActions unmounted = pageActions p ++ [setBoardType]
  /\ stateStageWidth (pageState unmounted) = offsetWidth
  /\ stateSelectedPieceLocation (pageState unmounted)
     = stateSelectedPieceLocation (pageState p)
  /\ forall n : nat,
       let again :=
         Nat.iter n (fun q => mountCleanup handler (mountEffect handler offsetWidth q)) p in
       pageListeners again = pageListeners p
       /\ pageActions again = pageActions p ++ replicate n setBoardType.
Proof.
  intros Hnot mounted unmounted. subst unmounted mounted.
  unfold mountCleanup, mountEffect.
  cbn [pageListeners pageActions pageState refreshBoardSize stateStageWidth
       stateSelectedPieceLocation].
  split.
  { unfold addEventListener. rewrite bool_decide_eq_false_2 by assumption.
    reflexivity. }
  split.
  { rewrite removeEventListener_added.
    apply removeEventListener_absent. exact Hnot. }
  split; [reflexivity|]. split; [reflexivity|]. split; [reflexivity|].
  induction n as [|n IH]; cbv zeta in *.
  - cbn. rewrite app_nil_r. auto.
  - rewrite Nat.iter_succ. destruct IH as [IHl IHa].
    cbn [pageListeners pageActions].
    rewrite removeEventListener_added, IHl, IHa.
    split; [apply removeEventListener_absent; exact Hnot|].
    rewrite <- app_assoc. f_equal.
    change (setBoardType :: replicate n setBoardType)
      with (replicate (S n) setBoardType).
    rewrite replicate_S_end. reflexivity.
Qed.

End MoreOfPage.

Section MoreExamples.
#[local] Existing Instance classicKhet.
#[local] Existing Instance exampleModels.
Local Open Scope Q_scope.

(** The notation of the examples tells the locations of a board of at most
    9 rows and 26 columns apart. *)
Lemma algebraic_inj (l l' : Location) :
  (0 <= rowIndex l < 9)%Z -> (0 <= colIndex l < 26)%Z ->
  (0 <= rowIndex l' < 9)%Z -> (0 <= colIndex l' < 26)%Z ->
  algebraic l = algebraic l' -> l = l'.
Proof.
  destruct l as [r c], l' as [r' c']. cbn [rowIndex colIndex].
  intros Hr Hc Hr' Hc'. unfold algebraic. cbn [rowIndex colIndex].
  intros E. injection E as Ec Er.
  apply (f_equal nat_of_ascii) in Ec, Er.
  rewrite !nat_ascii_embedding in Ec, Er by lia.
  f_equal; lia.
Qed.

Lemma mirrorRing_small :
  Forall (fun s => (0 <= rowIndex (location s) < 9)%Z
                   /\ (0 <= colIndex (location s) < 26)%Z)
         (concat mirrorRing).
Proof. apply (bool_decide_unpack _). vm_compute. exact I. Qed.

Lemma mirrorRing_told_apart (s s' : Square) :
  s ∈ concat mirrorRing -> s' ∈ concat mirrorRing ->
  toANString (location s) = toANString (location s') ->
  location s = location s'.
Proof.
  intros Hs Hs'.
  destruct (proj1 (Forall_forall _ _) mirrorRing_small s Hs) as [Hr Hc].
  destruct (proj1 (Forall_forall _ _) mirrorRing_small s' Hs') as [Hr' Hc'].
  apply algebraic_inj; assumption.
Qed.

Lemma onMove_special_outcome_on_mirrorRing :
  let layer := drawBoardPieces mirrorRing RED false 700 in
  wellFormed mirrorRing
  /\ movementType ringSwap = SPECIAL
  /\ squareAt mirrorRing (destLocation ringSwap)
     = Some (mkSquare (mkLocation 2 2) (Some (mkPiece Pyramid RED North)))
  /\ exists node duration timer,
       onMove layer ringSwap (70, 70)
       = inr [Tween node 70 70 duration; SetTimeout timer]
       /\ node ∈ layer
       /\ bpSquare node = mkSquare (mkLocation 2 2) (Some (mkPiece Pyramid RED North))
       /\ callback timer = [playerMove (serialize ringSwap)]
       /\ duration * 1000 == inject_Z (ms timer).
Proof.
  intros layer.
  split; [apply layout_wellFormed|]. split; [reflexivity|]. split; [reflexivity|].
  exact (onMove_special_outcome mirrorRing RED false 700 ringSwap (70, 70)
           (mkSquare (mkLocation 2 2) (Some (mkPiece Pyramid RED North)))
           (layout_wellFormed _) mirrorRing_told_apart eq_refl eq_refl).
Defined.

Lemma drawBoardPieces_each_piece_once_on_mirrorRing :
  wellFormed mirrorRing
  /\ pieceAt mirrorRing (mkLocation 2 2) = Some (mkPiece Pyramid RED North)
  /\ exists node,
       List.filter (fun node => bool_decide (location (bpSquare node) = mkLocation 2 2))
         (drawBoardPieces mirrorRing RED false 700) = [node]
       /\ squareAt mirrorRing (mkLocation 2 2) = Some (bpSquare node)
       /\ piece (bpSquare node) = Some (mkPiece Pyramid RED North)
       /\ bpId node = "c3"%string
       /\ bpKey node = "red-pyramid--c3"%string
       /\ bpGridSize node = getCellSize 700
       /\ bpTurn node = RED
       /\ bpLaserIsTriggered node = false.
Proof.
  split; [apply layout_wellFormed|]. split; [reflexivity|].
  exact (drawBoardPieces_each_piece_once mirrorRing RED false 700 (mkLocation 2 2)
           (layout_wellFormed _)).
Defined.

Lemma drawBoardPieces_ids_distinct_on_mirrorRing :
  let layer := drawBoardPieces mirrorRing RED false 700 in
  wellFormed mirrorRing
  /\ NoDup (bpId <$> layer)
  /\ (forall id, (length (find layer id) <= 1)%nat)
  /\ (forall node, node ∈ layer -> find layer (bpId node) = [node]).
Proof.
  intros layer. split; [apply layout_wellFormed|].
  exact (drawBoardPieces_ids_distinct mirrorRing RED false 700
           (layout_wellFormed _) mirrorRing_told_apart).
Defined.

Lemma drawLaser_inside_stage_on_a_bend :
  0 < 700
  /\ exists props,
       drawLaser [[0; 1]; [1; 1]; [1; 2]]%Z 700 = Some (Line props)
       /\ length (points props) = (2 * 3)%nat
       /\ forall (i : nat) (x y : Z),
            [[0; 1]; [1; 1]; [1; 2]]%Z !! i = Some [x; y] ->
            exists px py,
              points props !! (2 * i)%nat = Some px
              /\ points props !! (2 * i + 1)%nat = Some py
              /\ px == inject_Z x * getCellSize 700 + getCellSize 700 / 2
              /\ py == inject_Z y * getCellSize 700 + getCellSize 700 / 2
              /\ 0 < px /\ px < stageWidthProp 700
              /\ 0 < py /\ py < stageHeightProp 700.
Proof.
  assert (Hw : 0 < 700) by reflexivity.
  split; [exact Hw|].
  apply (drawLaser_inside_stage [[0; 1]; [1; 1]; [1; 2]]%Z 700 Hw).
  repeat (apply Forall_cons; split; [eexists _, _; split; [reflexivity|lia]|]).
  apply Forall_nil_2.
Defined.

Lemma unmount_removes_resize_listener_on_first_mount :
  let p := mkPage [] initialAppState [] in
  let unmounted := mountCleanup 0 (mountEffect 0 900 p) in
  (("resize"%string, 0%nat) ∉ pageListeners p)
  /\ pageListeners (mountEffect 0 900 p) = [("resize"%string, 0%nat)]
  /\ pageListeners unmounted = []
  /\ pageActions unmounted = [setBoardType]
  /\ stateStageWidth (pageState unmounted) = 900.
Proof.
  intros p unmounted.
  assert (Hnot : ("resize"%string, 0%nat) ∉ pageListeners p)
    by (intros Hin; inversion Hin).
  split; [exact Hnot|].
  pose proof (unmount_removes_resize_listener 0 900 p Hnot) as Hthm.
  cbv zeta in Hthm. destruct Hthm as (Hm & Hl & Ha & Hw & _).
  split; [exact Hm|]. split; [exact Hl|]. split; [exact Ha | exact Hw].
Defined.

End MoreExamples.

(** * The stage and the board of ten by eight *)

Section Stage.
Context `{Models}.





End Stage.

Section StageExamples.
#[local] Existing Instance classicKhet.
#[local] Existing Instance exampleModels.


End StageExamples.

(** * The turn in the store *)

Section Store.
Context `{Variant} `{Collaborators}.






End Store.

Section StoreExamples.
#[local] Existing Instance classicKhet.
#[local] Existing Instance exampleCollaborators.



End StoreExamples.

(** * The AI effect in time *)

Section TimerFacts.
Context {Store : Type}.
Variable reduce : Store -> Action -> Store.
Variable turnOf : Store -> PlayerTypesEnum.
Variable aiEnabledOf : Store -> bool.

Abbreviation world := (@World Store).
Abbreviation sound := (scheduledOnRed (Store := Store)).

Lemma aiEffect_timer (turn : PlayerTypesEnum) (aiEnabled : bool) (t : Timeout) :
  t ∈ aiEffect turn aiEnabled ->
  t = mkTimeout [aiMove] 500 /\ turn = RED /\ aiEnabled = true.
Proof.
  destruct turn, aiEnabled; cbn; intros Hin;
    try (inversion Hin; fail).
  apply list_elem_of_singleton in Hin. auto.
Qed.

Lemma takeEarliest_Some (pending : list (Z * Timeout)) (p : Z * Timeout)
    (rest : list (Z * Timeout)) :
  takeEarliest pending = Some (p, rest) ->
  p ∈ pending /\ forall q, q ∈ rest -> q ∈ pending.
Proof.
  revert p rest. induction pending as [|x pending IH]; intros p rest; [discriminate|].
  cbn. destruct (takeEarliest pending) as [[q rest']|].
  - destruct (IH q rest' eq_refl) as [Hq Hrest].
    case_bool_decide; intros [= <- <-].
    + split; [constructor | intros y Hy; constructor; exact Hy].
    + split; [constructor; exact Hq|].
      intros y Hy. apply elem_of_cons in Hy as [->|Hy]; [constructor|].
      constructor. apply Hrest. exact Hy.
  - intros [= <- <-]. split; [constructor | intros y Hy; inversion Hy].
Qed.

(** A dispatch keeps what holds of timers and moves, when the action is not
    [aiMove] or comes from a timer that was due now. *)
Lemma dispatch_scheduledOnRed (w : world) (a : Action) :
  sound w ->
  (isAiMove a = true -> EffectRan (worldNow w - 500) RED true ∈ worldLog w) ->
  sound (dispatch reduce turnOf aiEnabledOf w a)
  /\ worldNow (dispatch reduce turnOf aiEnabledOf w a) = worldNow w.
Proof.
  intros [Hpending Hlog] Ha. unfold dispatch.
  set (before := worldStore w). set (after := reduce before a).
  assert (Hreached : forall (log : list Happening) time turn aiEnabled,
             (forall h, h ∈ worldLog w -> h ∈ log) ->
             Reached time aiMove turn aiEnabled
             ∈ Reached (worldNow w) a (turnOf before) (aiEnabledOf before)
               :: worldLog w ->
             EffectRan (time - 500) RED true ∈ log).
  { intros log time turn ai Hsub Hin.
    apply elem_of_cons in Hin as [Heq|Hin].
    - injection Heq as -> <- _ _. apply Hsub, Ha. reflexivity.
    - apply Hsub. eapply Hlog. exact Hin. }
  case_bool_decide as Hsame; (split; [|reflexivity]); split; cbn.
  - intros p Hp. destruct (Hpending p Hp) as [Ht Hran].
    split; [exact Ht | constructor; exact Hran].
  - intros time turn ai Hin.
    apply (Hreached _ time turn ai); [intros h Hh; constructor; exact Hh | exact Hin].
  - intros p Hp. apply elem_of_app in Hp as [Hp|Hp].
    + destruct (Hpending p Hp) as [Ht Hran].
      split; [exact Ht | do 2 constructor; exact Hran].
    + apply list_elem_of_fmap in Hp as (t & -> & Ht).
      apply aiEffect_timer in Ht as (-> & Hturn & Hai). cbn.
      split; [reflexivity|]. rewrite Hturn, Hai.
      replace (worldNow w + 500 - 500) with (worldNow w) by lia. constructor.
  - intros time turn ai Hin.
    apply elem_of_cons in Hin as [Heq|Hin]; [discriminate|].
    apply (Hreached _ time turn ai);
      [intros h Hh; do 2 constructor; exact Hh | exact Hin].
Qed.

Lemma mount_scheduledOnRed (s : Store) :
  sound (mount reduce turnOf aiEnabledOf s).
Proof.
  unfold mount. apply dispatch_scheduledOnRed; [|discriminate].
  split; cbn.
  - intros p Hp. apply list_elem_of_fmap in Hp as (t & -> & Ht).
    apply aiEffect_timer in Ht as (-> & Hturn & Hai). cbn.
    split; [reflexivity|]. rewrite Hturn, Hai. constructor.
  - intros time turn ai Hin. apply list_elem_of_singleton in Hin. discriminate.
Qed.

Lemma step_scheduledOnRed (w w' : world) (e : Event) :
  sound w ->
  step reduce turnOf aiEnabledOf w e = Some w' ->
  sound w'.
Proof.
  intros Hw. destruct e as [time a|]; cbn.
  - destruct (bool_decide _ && negb (isAiMove a)) eqn:Hok; [|discriminate].
    intros [= <-]. apply andb_prop in Hok as [_ Ha].
    apply dispatch_scheduledOnRed.
    + exact Hw.
    + intros Hai. rewrite Hai in Ha. discriminate.
  - destruct (takeEarliest (worldPending w)) as [[p rest]|] eqn:Htake; [|discriminate].
    intros [= <-].
    destruct (takeEarliest_Some _ _ _ Htake) as [Hp Hrest].
    destruct Hw as [Hpending Hlog].
    destruct (Hpending p Hp) as [Htimer Hran]. rewrite Htimer. cbn.
    apply dispatch_scheduledOnRed.
    + split; cbn; [|exact Hlog]. intros q Hq. apply Hpending, Hrest, Hq.
    + intros _. exact Hran.
Qed.

Lemma run_scheduledOnRed (events : list Event) (w w' : world) :
  sound w ->
  run reduce turnOf aiEnabledOf w events = Some w' ->
  sound w'.
Proof.
  revert w. induction events as [|e events IH]; intros w Hw; cbn.
  - intros [= <-]. exact Hw.
  - destruct (step reduce turnOf aiEnabledOf w e) as [w1|] eqn:Hstep; [|discriminate].
    apply IH. eapply step_scheduledOnRed; eassumption.
Qed.

Lemma asLastSeen_split (log earlier later : list Happening) (time : Z)
    (a : Action) (turn : PlayerTypesEnum) (aiEnabled : bool) :
  asLastSeen log ->
  log = later ++ Reached time a turn aiEnabled :: earlier ->
  lastSeen earlier = Some (turn, aiEnabled).
Proof.
  revert log. induction later as [|h later IH]; intros log Hlog ->.
  - cbn in Hlog. tauto.
  - destruct h; cbn in Hlog; [|destruct Hlog as [_ Hlog]];
      exact (IH _ Hlog eq_refl).
Qed.

Lemma dispatch_upToDate (w : world) (a : Action) :
  upToDate turnOf aiEnabledOf w ->
  upToDate turnOf aiEnabledOf (dispatch reduce turnOf aiEnabledOf w a).
Proof.
  intros [Hseen Hlog]. unfold dispatch, upToDate.
  case_bool_decide as Hsame; cbn.
  - destruct Hsame as [-> ->]. auto.
  - auto.
Qed.

Lemma mount_upToDate (s : Store) :
  upToDate turnOf aiEnabledOf (mount reduce turnOf aiEnabledOf s).
Proof. unfold mount. apply dispatch_upToDate. split; cbn; auto. Qed.

Lemma foldl_dispatch_upToDate (actions : list Action) (w : world) :
  upToDate turnOf aiEnabledOf w ->
  upToDate turnOf aiEnabledOf (foldl (dispatch reduce turnOf aiEnabledOf) w actions).
Proof.
  revert w. induction actions as [|a actions IH]; intros w Hw; [exact Hw|].
  cbn. apply IH, dispatch_upToDate, Hw.
Qed.

Lemma run_upToDate (events : list Event) (w w' : world) :
  upToDate turnOf aiEnabledOf w ->
  run reduce turnOf aiEnabledOf w events = Some w' ->
  upToDate turnOf aiEnabledOf w'.
Proof.
  revert w. induction events as [|e events IH]; intros w Hw; cbn.
  - intros [= <-]. exact Hw.
  - destruct (step reduce turnOf aiEnabledOf w e) as [w1|] eqn:Hstep; [|discriminate].
    apply IH. destruct e as [time a|]; cbn in Hstep.
    + destruct (bool_decide _ && negb (isAiMove a)); [|discriminate].
      injection Hstep as <-. apply dispatch_upToDate. exact Hw.
    + destruct (takeEarliest (worldPending w)) as [[p rest]|]; [|discriminate].
      injection Hstep as <-. apply foldl_dispatch_upToDate. exact Hw.
Qed.

(** C7.  Whatever the store is and whatever else is dispatched and when, an
    [aiMove] reaches the store only from a timer of the effect, and the
    effect set that timer 500 ms earlier, as it ran on Red's turn with the
    AI mode enabled: the effect schedules [aiMove] if and only if, as it
    runs, the active player is Red and the AI mode is enabled, and nothing
    else.  Every timer that is still pending is such a timer.  The timer
    tests nothing as it fires: the [aiMove] finds the store with the turn and
    the AI mode the effect last ran with, so on Red's turn with the AI mode
    enabled exactly when the latest run of the effect before it was such a
    run. *)
Theorem aiMove_scheduled_on_red_turn_with_ai (s : Store) (events : list Event)
    (w : world) :
  run reduce turnOf aiEnabledOf (mount reduce turnOf aiEnabledOf s) events = Some w ->
  (forall time turn aiEnabled,
      Reached time aiMove turn aiEnabled ∈ worldLog w ->
      EffectRan (time - 500) RED true ∈ worldLog w)
  /\ (forall p,
         p ∈ worldPending w ->
         snd p = mkTimeout [aiMove] 500
         /\ EffectRan (fst p - 500) RED true ∈ worldLog w)
  /\ (forall later earlier time turn aiEnabled,
         worldLog w = later ++ Reached time aiMove turn aiEnabled :: earlier ->
         lastSeen earlier = Some (turn, aiEnabled)
         /\ (turn = RED /\ aiEnabled = true
             <-> lastSeen earlier = Some (RED, true)))
  /\ (forall turn aiEnabled,
         (aiMove ∈ dispatched (aiEffect turn aiEnabled)
          <-> turn = RED /\ aiEnabled = true)
         /\ (forall a, a ∈ dispatched (aiEffect turn aiEnabled) -> a = aiMove)
         /\ (forall t, t ∈ aiEffect turn aiEnabled -> ms t = 500)).
Proof.
  intros Hrun.
  destruct (run_scheduledOnRed events _ w (mount_scheduledOnRed s) Hrun)
    as [Hpending Hlog].
  destruct (run_upToDate events _ w (mount_upToDate s) Hrun) as [_ Hseen].
  split; [exact Hlog|]. split; [exact Hpending|].
  split.
  { intros later earlier time turn aiEnabled Hsplit.
    pose proof (asLastSeen_split _ _ _ _ _ _ _ Hseen Hsplit) as Hlast.
    split; [exact Hlast|]. rewrite Hlast.
    split; [intros [-> ->]; reflexivity | intros [= -> ->]; auto]. }
  intros turn aiEnabled.
  destruct (aiEffect_schedules_iff turn aiEnabled) as (Hiff & Honly & _).
  split; [exact Hiff|]. split; [exact Honly|].
  intros t Ht. apply aiEffect_timer in Ht as (-> & _). reflexivity.
Qed.

End TimerFacts.

Section TimerExamples.
#[local] Existing Instance classicKhet.
#[local] Existing Instance exampleCollaborators.

(** The page is loaded on Red's turn with the AI mode enabled and left alone:
    the timer of the effect fires and [aiMove] reaches the store on Red's
    turn with the AI mode enabled. *)
Lemma aiMove_scheduled_on_red_turn_with_ai_undisturbed :
  exists w,
    run gameReducer gameTurn gameAiEnabled
      (mount gameReducer gameTurn gameAiEnabled aiStart) [TimerFires] = Some w
    /\ Reached 500 aiMove RED true ∈ worldLog w
    /\ EffectRan (500 - 500) RED true ∈ worldLog w.
Proof.
  eexists. split; [vm_compute; reflexivity|].
  assert (Hin : Reached 500 aiMove RED true
                ∈ [Reached 500 aiMove RED true;
                   Reached 0 setBoardType RED true; EffectRan 0 RED true])
    by constructor.
  split; [exact Hin|].
  exact (proj1 (aiMove_scheduled_on_red_turn_with_ai gameReducer gameTurn
                  gameAiEnabled aiStart [TimerFires] _ eq_refl)
               500 RED true Hin).
Defined.

(** The page is loaded on Red's turn with the AI mode enabled, and after
    100 ms the AI mode is switched off (App.js 283-290).  The timer set at
    the start fires all the same: [aiMove] reaches the store while the AI
    mode is disabled. *)
Lemma aiMove_reaches_store_with_ai_disabled :
  exists w,
    run gameReducer gameTurn gameAiEnabled
      (mount gameReducer gameTurn gameAiEnabled aiStart)
      [Handler 100 toggleAI; TimerFires] = Some w
    /\ Reached 100 toggleAI RED true ∈ worldLog w
    /\ Reached 500 aiMove RED false ∈ worldLog w
    /\ ~ (forall time turn aiEnabled,
             Reached time aiMove turn aiEnabled ∈ worldLog w ->
             turn = RED /\ aiEnabled = true).
Proof.
  eexists. split; [vm_compute; reflexivity|].
  assert (Hin : Reached 500 aiMove RED false
                ∈ [Reached 500 aiMove RED false; EffectRan 100 RED false;
                   Reached 100 toggleAI RED true;
                   Reached 0 setBoardType RED true; EffectRan 0 RED true])
    by constructor.
  split; [repeat constructor|]. split; [exact Hin|].
  intros Hclaim. destruct (Hclaim 500 RED false Hin) as [_ Hai]. discriminate.
Qed.

End TimerExamples.

Section KeyExamples.
#[local] Existing Instance classicKhet.
#[local] Existing Instance exampleModels.

Lemma openFile_destinations_told_apart (m m' : Movement) :
  m ∈ getMovesForPieceAtLocation openFile (mkLocation 0 5) ->
  m' ∈ getMovesForPieceAtLocation openFile (mkLocation 0 5) ->
  toANString (destLocation m) = toANString (destLocation m') ->
  destLocation m = destLocation m'.
Proof.
  assert (Hsmall :
    Forall (fun m => (0 <= rowIndex (destLocation m) < 9)%Z
                     /\ (0 <= colIndex (destLocation m) < 26)%Z)
           (getMovesForPieceAtLocation openFile (mkLocation 0 5))).
  { apply (bool_decide_unpack _). vm_compute. exact I. }
  intros Hm Hm'.
  destruct (proj1 (Forall_forall _ _) Hsmall m Hm) as [Hr Hc].
  destruct (proj1 (Forall_forall _ _) Hsmall m' Hm') as [Hr' Hc'].
  apply algebraic_inj; assumption.
Qed.

Lemma openFile_destinations_distinct :
  NoDup (destLocation <$> getMovesForPieceAtLocation openFile (mkLocation 0 5)).
Proof. apply (bool_decide_unpack _). vm_compute. exact I. Qed.

(** The Pharaoh of the open file has three squares to go to and gets three
    markers with keys of their own; the two rotations of the Anubis turn it
    where it stands, so their markers share a key. *)
Lemma drawHighlight_marker_keys_on_openFile :
  (exists highlights,
      drawHighlight (Some (mkLocation 0 5)) openFile 700 = Some highlights
      /\ circleKey <$> circlesOfAll highlights
         = ["pm--e1"; "pm--e2"; "pm--f2"]%string
      /\ NoDup (circleKey <$> circlesOfAll highlights))
  /\ (exists highlights,
         drawHighlight (Some (mkLocation 2 2)) openFile 700 = Some highlights
         /\ circleKey <$> circlesOfAll highlights
            = ["pm--c2"; "pm--b3"; "pm--d3"; "pm--c3"; "pm--c3"]%string
         /\ ~ NoDup (circleKey <$> circlesOfAll highlights)).
Proof.
  split.
  - destruct (drawHighlight_marker_keys (mkLocation 0 5) openFile 700)
      as (highlights & Hdraw & Hkeys & _ & Hdistinct).
    exists highlights. split; [exact Hdraw|]. split; [exact Hkeys|].
    exact (Hdistinct openFile_destinations_told_apart
             openFile_destinations_distinct).
  - destruct (drawHighlight_marker_keys (mkLocation 2 2) openFile 700)
      as (highlights & Hdraw & Hkeys & Hback & _).
    exists highlights. split; [exact Hdraw|]. split; [exact Hkeys|].
    intros Hnd. apply Hback in Hnd.
    revert Hnd. apply (bool_decide_eq_false_1 _). vm_compute. reflexivity.
Defined.

End KeyExamples.
